(** * Image compressor: the job orchestration of the batch page

    A shallow embedding of the vanilla TypeScript page (the file whose
    handlers are [processFiles], [compressToTargetSize], [handleApplyToAll],
    ...): the list of [ImageFileState] records, the id counter, the
    object URLs handed out by the browser, the promises of
    [imageCompression] that are still in flight and the last rendered
    page, together with the handlers that act on them.

    - JavaScript numbers that hold sizes are binary64 floats, modelled by
      Rocq's primitive floats with their arithmetic and comparisons; ids
      and object URLs are counters.
    - The handlers mutate module-level variables; here they pass a [World]
      along, which also logs, in order, the calls that leave the page.
    - An [async] function runs up to its [await] inside the handler that
      called it and resumes later, as an event of its own.
      [imageCompression] is taken to return a promise (it does not throw
      at the call) that resolves with a file or rejects.
    - Of the DOM, the model keeps what decides which clicks reach a
      handler: the cards with their buttons and the file name the card
      template pastes into its markup, and the toolbar.  A name that
      carries markup can put further elements on a card; the clicks they
      let through to the listener are events of the model.  Code that
      such markup would bring along itself is not code of the page and is
      not modelled. *)

From Stdlib Require Import PrimFloat SpecFloat FloatOps FloatAxioms.
From stdpp Require Import base decidable option numbers list strings.

(** ** Type definitions *)

Inductive ImageStatus := compressing | done | error.
Inductive SizeUnit := KB | MB.

#[global] Instance ImageStatus_eq_dec : EqDecision ImageStatus.
Proof. solve_decision. Defined.
#[global] Instance SizeUnit_eq_dec : EqDecision SizeUnit.
Proof. solve_decision. Defined.

(** A browser [File]: the page reads only its name and its size. *)
Record File := { name : string; size : N }.

(** An object URL ([blob:...]) is an opaque handle; the browser never hands
    out the same one twice. *)
Definition ObjectUrl := nat.

Record ImageFileState := {
  id : nat;
  originalFile : File;
  originalUrl : ObjectUrl;
  compressedFile : option File;
  compressedUrl : option ObjectUrl;
  status : ImageStatus;
  targetSize : float;
  targetUnit : SizeUnit;
}.

(** [Partial<ImageFileState>]: every field optional.  A field that is
    present overrides, also when it is present with the value [null]. *)
Record Partial := {
  upd_id : option nat;
  upd_originalFile : option File;
  upd_originalUrl : option ObjectUrl;
  upd_compressedFile : option (option File);
  upd_compressedUrl : option (option ObjectUrl);
  upd_status : option ImageStatus;
  upd_targetSize : option float;
  upd_targetUnit : option SizeUnit;
}.

Definition noUpdates : Partial :=
  {| upd_id := None; upd_originalFile := None; upd_originalUrl := None;
     upd_compressedFile := None; upd_compressedUrl := None;
     upd_status := None; upd_targetSize := None; upd_targetUnit := None |}.

Definition withStatus (s : ImageStatus) (p : Partial) : Partial :=
  {| upd_id := upd_id p; upd_originalFile := upd_originalFile p;
     upd_originalUrl := upd_originalUrl p;
     upd_compressedFile := upd_compressedFile p;
     upd_compressedUrl := upd_compressedUrl p;
     upd_status := Some s;
     upd_targetSize := upd_targetSize p; upd_targetUnit := upd_targetUnit p |}.

Definition withCompressedFile (c : option File) (p : Partial) : Partial :=
  {| upd_id := upd_id p; upd_originalFile := upd_originalFile p;
     upd_originalUrl := upd_originalUrl p;
     upd_compressedFile := Some c;
     upd_compressedUrl := upd_compressedUrl p;
     upd_status := upd_status p;
     upd_targetSize := upd_targetSize p; upd_targetUnit := upd_targetUnit p |}.

Definition withCompressedUrl (u : option ObjectUrl) (p : Partial) : Partial :=
  {| upd_id := upd_id p; upd_originalFile := upd_originalFile p;
     upd_originalUrl := upd_originalUrl p;
     upd_compressedFile := upd_compressedFile p;
     upd_compressedUrl := Some u;
     upd_status := upd_status p;
     upd_targetSize := upd_targetSize p; upd_targetUnit := upd_targetUnit p |}.

Definition withTargetSize (x : float) (p : Partial) : Partial :=
  {| upd_id := upd_id p; upd_originalFile := upd_originalFile p;
     upd_originalUrl := upd_originalUrl p;
     upd_compressedFile := upd_compressedFile p;
     upd_compressedUrl := upd_compressedUrl p;
     upd_status := upd_status p;
     upd_targetSize := Some x; upd_targetUnit := upd_targetUnit p |}.

Definition withTargetUnit (u : SizeUnit) (p : Partial) : Partial :=
  {| upd_id := upd_id p; upd_originalFile := upd_originalFile p;
     upd_originalUrl := upd_originalUrl p;
     upd_compressedFile := upd_compressedFile p;
     upd_compressedUrl := upd_compressedUrl p;
     upd_status := upd_status p;
     upd_targetSize := upd_targetSize p; upd_targetUnit := Some u |}.

(** The spread [{ ...old, ...updates }]. *)
Definition merge (old : ImageFileState) (updates : Partial) : ImageFileState :=
  {| id := default (id old) (upd_id updates);
     originalFile := default (originalFile old) (upd_originalFile updates);
     originalUrl := default (originalUrl old) (upd_originalUrl updates);
     compressedFile := default (compressedFile old) (upd_compressedFile updates);
     compressedUrl := default (compressedUrl old) (upd_compressedUrl updates);
     status := default (status old) (upd_status updates);
     targetSize := default (targetSize old) (upd_targetSize updates);
     targetUnit := default (targetUnit old) (upd_targetUnit updates) |}.

(** The update objects the handlers write. *)
Definition markCompressing : Partial := withStatus compressing noUpdates.
Definition markError : Partial := withStatus error noUpdates.
Definition markDone (c : File) (u : ObjectUrl) : Partial :=
  withCompressedUrl (Some u) (withCompressedFile (Some c) (withStatus done noUpdates)).
Definition newTarget (newSize : float) (newUnit : SizeUnit) : Partial :=
  withTargetUnit newUnit (withTargetSize newSize noUpdates).
Definition resetTarget : Partial :=
  withTargetUnit KB (withTargetSize 500%float
    (withCompressedUrl None (withCompressedFile None noUpdates))).
Definition bulkTarget (newSize : float) (newUnit : SizeUnit) : Partial :=
  withStatus compressing (withTargetUnit newUnit (withTargetSize newSize noUpdates)).

(** ** The store: an array of records, searched by id *)

(** [imageFilesState.find(f => f.id === id)] *)
Definition find (i : nat) (fs : list ImageFileState) : option ImageFileState :=
  snd <$> list_find (λ f, id f = i) fs.

(** [imageFilesState.findIndex(f => f.id === id)], [None] for [-1] *)
Definition findIndex (i : nat) (fs : list ImageFileState) : option nat :=
  fst <$> list_find (λ f, id f = i) fs.

(** The array after [updateFileState(id, updates)]: the record at the
    index [findIndex] returns is replaced by its merge with [updates];
    nothing happens when the index is [-1]. *)
Definition updated (i : nat) (updates : Partial) (fs : list ImageFileState)
  : list ImageFileState :=
  match list_find (λ f, id f = i) fs with
  | Some (index, old) => <[index := merge old updates]> fs
  | None => fs
  end.

(** ** The page around the store *)

Record CompressionOptions := {
  maxSizeMB : float;
  maxWidthOrHeight : N;
  useWebWorker : bool;
}.

(** A call of [compressToTargetSize] suspended at its [await]: the id the
    closure holds and the arguments [imageCompression] was called with. *)
Record Pending := {
  run_id : nat;
  run_file : File;
  run_options : CompressionOptions;
}.

(** What [createCardElement] puts on a card, as far as it decides which
    clicks the card can receive.  [pastedName] is the file name, which the
    template writes as it is, without escaping, into the [alt] and [title]
    attributes, the text of [.card-filename] and the [download] attribute
    of the string assigned to [card.innerHTML]. *)
Record Card := {
  data_id : nat;
  pastedName : string;
  hasSpinner : bool;
  hasTargetControls : bool;
  controlsDisabled : bool;
  hasDownloadLink : bool;
}.

(** What [updateGlobalUI] leaves on the toolbar. *)
Record GlobalUI := {
  downloadAllBtn_disabled : bool;
  applyToAllBtn_disabled : bool;
  clearAllBtn_disabled : bool;
  downloadCountBadge : option nat;
}.

Record Page := { cards : list Card; toolbar : GlobalUI }.

(** Calls that leave the page's own state, in the order they happen. *)
Inductive Effect :=
| CreateObjectURL (u : ObjectUrl)
| RevokeObjectURL (u : ObjectUrl)
| Render (snapshot : list ImageFileState)
| ImageCompression (run : Pending)
| Focus
| ConsoleError.

Record World := {
  imageFilesState : list ImageFileState;
  nextId : nat;
  page : Page;
  urlCounter : nat;
  inFlight : list Pending;
  trace : list Effect;
}.

Definition setFiles (fs : list ImageFileState) (w : World) : World :=
  {| imageFilesState := fs; nextId := nextId w; page := page w;
     urlCounter := urlCounter w; inFlight := inFlight w; trace := trace w |}.

Definition setNextId (n : nat) (w : World) : World :=
  {| imageFilesState := imageFilesState w; nextId := n; page := page w;
     urlCounter := urlCounter w; inFlight := inFlight w; trace := trace w |}.

Definition setPage (p : Page) (w : World) : World :=
  {| imageFilesState := imageFilesState w; nextId := nextId w; page := p;
     urlCounter := urlCounter w; inFlight := inFlight w; trace := trace w |}.

Definition setUrlCounter (n : nat) (w : World) : World :=
  {| imageFilesState := imageFilesState w; nextId := nextId w; page := page w;
     urlCounter := n; inFlight := inFlight w; trace := trace w |}.

Definition setInFlight (rs : list Pending) (w : World) : World :=
  {| imageFilesState := imageFilesState w; nextId := nextId w; page := page w;
     urlCounter := urlCounter w; inFlight := rs; trace := trace w |}.

Definition emit (e : Effect) (w : World) : World :=
  {| imageFilesState := imageFilesState w; nextId := nextId w; page := page w;
     urlCounter := urlCounter w; inFlight := inFlight w;
     trace := trace w ++ [e] |}.

(** [URL.createObjectURL]: a fresh handle. *)
Definition createObjectURL (w : World) : ObjectUrl * World :=
  let u := urlCounter w in
  (u, emit (CreateObjectURL u) (setUrlCounter (S u) w)).

(** [URL.revokeObjectURL] *)
Definition revokeObjectURL (u : ObjectUrl) (w : World) : World :=
  emit (RevokeObjectURL u) w.

(** ** Helper functions *)

Definition updateFileState (i : nat) (updates : Partial) (w : World) : World :=
  setFiles (updated i updates (imageFilesState w)) w.

(** ** Core application logic *)

Definition createCardElement (file : ImageFileState) : Card :=
  let isCompressing := bool_decide (status file = compressing) in
  let isDone := bool_decide (status file = done) in
  let isError := bool_decide (status file = error) in
  {| data_id := id file;
     pastedName := name (originalFile file);
     hasSpinner := isCompressing;
     hasTargetControls := negb isError;
     controlsDisabled := isCompressing;
     hasDownloadLink := isDone && bool_decide (is_Some (compressedUrl file)) |}.

(** [array.some(p)] *)
Definition some {A} (P : A → Prop) `{∀ x, Decision (P x)} (l : list A) : bool :=
  bool_decide (Exists P l).

Definition anyCompressing (fs : list ImageFileState) : bool :=
  some (λ f, status f = compressing) fs.
Definition anyDone (fs : list ImageFileState) : bool :=
  some (λ f, status f = done) fs.
Definition readyToDownloadCount (fs : list ImageFileState) : nat :=
  length (filter (λ f, status f = done ∧ is_Some (compressedFile f)) fs).

Definition updateGlobalUI (fs : list ImageFileState) : GlobalUI :=
  {| downloadAllBtn_disabled := anyCompressing fs || negb (anyDone fs);
     applyToAllBtn_disabled := anyCompressing fs;
     clearAllBtn_disabled := anyCompressing fs;
     downloadCountBadge :=
       if bool_decide (0 < readyToDownloadCount fs)
       then Some (readyToDownloadCount fs) else None |}.

Definition pageOf (fs : list ImageFileState) : Page :=
  {| cards := createCardElement <$> fs; toolbar := updateGlobalUI fs |}.

Definition render (w : World) : World :=
  let fs := imageFilesState w in
  emit (Render fs) (setPage (pageOf fs) w).

(** [targetUnit === 'MB' ? 1024 * 1024 : 1024] *)
Definition multiplier (u : SizeUnit) : float :=
  match u with MB => (1024 * 1024)%float | KB => 1024%float end.

Definition compressionOptions (targetSizeBytes : float) : CompressionOptions :=
  {| maxSizeMB := (targetSizeBytes / 1024 / 1024)%float;
     maxWidthOrHeight := 1920%N;
     useWebWorker := true |}.

(** The call of [imageCompression]: the promise joins the ones in flight. *)
Definition awaitImageCompression (run : Pending) (w : World) : World :=
  emit (ImageCompression run) (setInFlight (inFlight w ++ [run]) w).

(** [compressToTargetSize] up to its [await]. *)
Definition compressToTargetSize (i : nat) (targetSizeBytes : float)
    (suppressInitialRender : bool) (w : World) : World :=
  match find i (imageFilesState w) with
  | None => w
  | Some fileState =>
      let w1 := if suppressInitialRender then w
                else render (updateFileState i markCompressing w) in
      awaitImageCompression
        {| run_id := i; run_file := originalFile fileState;
           run_options := compressionOptions targetSizeBytes |} w1
  end.

(** [compressToTargetSize] after its [await], when the promise resolved. *)
Definition resumeResolved (run : Pending) (compressed : File) (w : World) : World :=
  let '(u, w1) := createObjectURL w in
  render (updateFileState (run_id run) (markDone compressed u) w1).

(** [compressToTargetSize] after its [await], when the promise rejected. *)
Definition resumeRejected (run : Pending) (w : World) : World :=
  render (updateFileState (run_id run) markError (emit ConsoleError w)).

Definition runCompressionForId (i : nat) (w : World) : World :=
  match find i (imageFilesState w) with
  | None => w
  | Some fileState =>
      let targetBytes := (targetSize fileState * multiplier (targetUnit fileState))%float in
      compressToTargetSize i targetBytes false w
  end.

(** [Array.from(files).map(file => ({ id: nextId++, ... }))] *)
Fixpoint newFileStates (files : list File) (w : World) : list ImageFileState * World :=
  match files with
  | [] => ([], w)
  | file :: rest =>
      let i := nextId w in
      let '(u, w1) := createObjectURL (setNextId (S i) w) in
      let '(more, w2) := newFileStates rest w1 in
      ({| id := i; originalFile := file; originalUrl := u;
          compressedFile := None; compressedUrl := None;
          status := compressing; targetSize := 500%float; targetUnit := KB |} :: more,
       w2)
  end.

Definition processFiles (files : list File) (w : World) : World :=
  let '(newFiles, w1) := newFileStates files w in
  let w2 := render (setFiles (imageFilesState w1 ++ newFiles) w1) in
  foldl (λ acc file, runCompressionForId (id file) acc) w2 newFiles.

(** ** Event handlers *)

Definition revokeBoth (file : ImageFileState) (w : World) : World :=
  let w1 := revokeObjectURL (originalUrl file) w in
  match compressedUrl file with
  | Some u => revokeObjectURL u w1
  | None => w1
  end.

Definition handleRemoveImage (i : nat) (w : World) : World :=
  let w1 := match find i (imageFilesState w) with
            | Some file => revokeBoth file w
            | None => w
            end in
  render (setFiles (filter (λ f, id f ≠ i) (imageFilesState w1)) w1).

Definition handleTargetSizeApply (i : nat) (newSize : float) (newUnit : SizeUnit)
    (w : World) : World :=
  runCompressionForId i (updateFileState i (newTarget newSize newUnit) w).

Definition handleReset (i : nat) (w : World) : World :=
  match find i (imageFilesState w) with
  | None => w
  | Some fileState =>
      let w1 := match compressedUrl fileState with
                | Some u => revokeObjectURL u w
                | None => w
                end in
      runCompressionForId i (updateFileState i resetTarget w1)
  end.

(** [newSize] is what [parseFloat] made of the input field. *)
Definition handleApplyToAll (newSize : float) (newUnit : SizeUnit) (w : World) : World :=
  if is_nan newSize || (newSize <=? 0)%float then emit Focus w
  else
    let filesToUpdate := filter (λ f, status f ≠ error) (imageFilesState w) in
    if bool_decide (length filesToUpdate = 0) then w
    else
      let w1 := foldl (λ acc file,
                  updateFileState (id file) (bulkTarget newSize newUnit) acc)
                  w filesToUpdate in
      let w2 := render w1 in
      foldl (λ acc file,
        compressToTargetSize (id file) (newSize * multiplier newUnit)%float true acc)
        w2 filesToUpdate.

Definition handleClearAll (w : World) : World :=
  let w1 := foldl (λ acc file, revokeBoth file acc) w (imageFilesState w) in
  render (setNextId 0 (setFiles [] w1)).

(** ** Events *)

(** A text that the HTML parser reads as text wherever the card template
    pastes it: between double quotes an attribute value ends only at a
    double quote, and in the content of an element markup starts only at
    [<].  A name with neither character leaves the card with the elements
    of the template and no others. *)
Definition plainText (s : string) : bool :=
  forallb (λ c, negb (Ascii.eqb c (Ascii.ascii_of_nat 60)      (* < *)
                      || Ascii.eqb c (Ascii.ascii_of_nat 34))) (* double quote *)
    (String.list_ascii_of_string s).

(** Every card of the page has the elements of the template only. *)
Definition templateOnly (p : Page) : bool :=
  forallb (λ card, plainText (pastedName card)) (cards p).

(** The click listener of the result list ends in one of three calls.  It
    takes the id from [data-id] of the closest [.result-card] of the
    target and chooses the call by the closest [.btn-remove], [.btn-apply]
    or [.btn-reset]; it looks neither at the status of the record nor at
    whether the elements are the template's. *)
Inductive ListenerCall :=
| RemoveImage (i : nat)
| TargetSizeApply (i : nat) (newSize : float) (newUnit : SizeUnit)
| Reset (i : nat).

(** What can happen to the page: the file input changes (or files are
    dropped), a button is clicked, or a promise of [imageCompression]
    settles, in any order, with a file or with an error.  A card is named
    by its position in the result list; the listener reads the id from the
    card's [data-id].  [sizeInput] is what [parseFloat] makes of the size
    field.  A button that is absent or carries [disabled] receives no
    click.

    [ClickRemove], [ClickApply] and [ClickReset] are the clicks on the
    buttons of the template.  [ClickPasted] is a click on an element that a
    file name with markup has put on some card, or on a button of the
    template that such markup has moved: the elements, the [data-id] and
    the size and unit fields it finds are whatever the name says, so the
    call and its arguments are arbitrary.  An id that [parseInt] reads as
    NaN or as a number no record has acts like any id that is not stored;
    a unit other than the text MB acts like KB wherever the page reads it.

    The export ([handleDownloadAll]) has its events further down, with
    the state only it touches. *)
Inductive Event :=
| FilesChosen (files : list File)
| ClickRemove (card : nat)
| ClickApply (card : nat) (sizeInput : float) (unitSelect : SizeUnit)
| ClickReset (card : nat)
| ClickApplyToAll (sizeInput : float) (unitSelect : SizeUnit)
| ClickClearAll
| Resolved (k : nat) (compressed : File)
| Rejected (k : nat)
| ClickPasted (call : ListenerCall).

Definition canRerun (card : Card) : bool :=
  hasTargetControls card && negb (controlsDisabled card).

Definition runCall (call : ListenerCall) (w : World) : World :=
  match call with
  | RemoveImage i => handleRemoveImage i w
  | TargetSizeApply i newSize newUnit => handleTargetSizeApply i newSize newUnit w
  | Reset i => handleReset i w
  end.

Definition dispatchEvent (ev : Event) (w : World) : World :=
  match ev with
  | FilesChosen files => processFiles files w
  | ClickRemove k =>
      match cards (page w) !! k with
      | Some card => handleRemoveImage (data_id card) w
      | None => w
      end
  | ClickApply k sizeInput unitSelect =>
      match cards (page w) !! k with
      | Some card =>
          if canRerun card
          then handleTargetSizeApply (data_id card) sizeInput unitSelect w
          else w
      | None => w
      end
  | ClickReset k =>
      match cards (page w) !! k with
      | Some card => if canRerun card then handleReset (data_id card) w else w
      | None => w
      end
  | ClickApplyToAll sizeInput unitSelect =>
      if applyToAllBtn_disabled (toolbar (page w)) then w
      else handleApplyToAll sizeInput unitSelect w
  | ClickClearAll =>
      if clearAllBtn_disabled (toolbar (page w)) then w else handleClearAll w
  | Resolved k compressed =>
      match inFlight w !! k with
      | Some run => resumeResolved run compressed (setInFlight (delete k (inFlight w)) w)
      | None => w
      end
  | Rejected k =>
      match inFlight w !! k with
      | Some run => resumeRejected run (setInFlight (delete k (inFlight w)) w)
      | None => w
      end
  | ClickPasted call =>
      if templateOnly (page w) then w else runCall call w
  end.

(** The page as loaded: nothing stored, no card; [g] is the toolbar as the
    static markup leaves it. *)
Definition initialWorld (g : GlobalUI) : World :=
  {| imageFilesState := []; nextId := 0;
     page := {| cards := []; toolbar := g |};
     urlCounter := 0; inFlight := []; trace := [] |}.

Definition runEvents (evs : list Event) (w : World) : World :=
  foldl (λ acc ev, dispatchEvent ev acc) w evs.

Inductive Reachable : World → Prop :=
| reach_initial g : Reachable (initialWorld g)
| reach_event w ev : Reachable w → Reachable (dispatchEvent ev w).

(** Object URLs created and not revoked so far. *)
Definition createdUrls (t : list Effect) : list ObjectUrl :=
  omap (λ e, match e with CreateObjectURL u => Some u | _ => None end) t.
Definition revokedUrls (t : list Effect) : list ObjectUrl :=
  omap (λ e, match e with RevokeObjectURL u => Some u | _ => None end) t.
Definition liveUrls (t : list Effect) : list ObjectUrl :=
  filter (λ u, u ∉ revokedUrls t) (createdUrls t).

(** The ids of the runs an event starts in [w]. *)
Definition startedRuns (ev : Event) (w : World) : list nat :=
  omap (λ e, match e with ImageCompression run => Some (run_id run) | _ => None end)
    (drop (length (trace w)) (trace (dispatchEvent ev w))).

(** ** Vocabulary of the statements *)

(** The calls of [URL.revokeObjectURL] that retire one record. *)
Definition revocations (file : ImageFileState) : list Effect :=
  RevokeObjectURL (originalUrl file) ::
  match compressedUrl file with
  | Some u => [RevokeObjectURL u]
  | None => []
  end.

(** A size that is a positive finite number. *)
Definition positiveFinite (x : float) : bool :=
  ((0 <? x) && (x <? infinity))%float.

(** One record after each kind of update, field by field. *)
Definition asCompressing (f : ImageFileState) : ImageFileState :=
  {| id := id f; originalFile := originalFile f; originalUrl := originalUrl f;
     compressedFile := compressedFile f; compressedUrl := compressedUrl f;
     status := compressing;
     targetSize := targetSize f; targetUnit := targetUnit f |}.

Definition asFailed (f : ImageFileState) : ImageFileState :=
  {| id := id f; originalFile := originalFile f; originalUrl := originalUrl f;
     compressedFile := compressedFile f; compressedUrl := compressedUrl f;
     status := error;
     targetSize := targetSize f; targetUnit := targetUnit f |}.

Definition asReset (f : ImageFileState) : ImageFileState :=
  {| id := id f; originalFile := originalFile f; originalUrl := originalUrl f;
     compressedFile := None; compressedUrl := None;
     status := compressing;
     targetSize := 500%float; targetUnit := KB |}.

Definition asRetargeted (newSize : float) (newUnit : SizeUnit) (f : ImageFileState)
  : ImageFileState :=
  {| id := id f; originalFile := originalFile f; originalUrl := originalUrl f;
     compressedFile := compressedFile f; compressedUrl := compressedUrl f;
     status := compressing;
     targetSize := newSize; targetUnit := newUnit |}.

(** Sample files and the toolbar before the first render. *)
Definition fileA : File := {| name := "a.png"; size := 500000 |}.
Definition fileB : File := {| name := "b.png"; size := 200000 |}.
Definition fileC : File := {| name := "c.png"; size := 10000 |}.
Definition outA : File := {| name := "a.png"; size := 120000 |}.
Definition outB : File := {| name := "b.png"; size := 90000 |}.
Definition toolbar0 : GlobalUI := updateGlobalUI [].

(** A file whose name is x, a double quote, the text class=, a double
    quote and the text btn-reset.  Pasted between the quotes of [alt],
    it ends that attribute and gives the thumbnail the class btn-reset. *)
Definition fileQ : File :=
  {| name := "x" +:+ String (Ascii.ascii_of_nat 34)
               (" class=" +:+ String (Ascii.ascii_of_nat 34) "btn-reset");
     size := 1000 |}.

(** The record [processFiles] makes of one file. *)
Definition newRecord (i : nat) (file : File) (u : ObjectUrl) : ImageFileState :=
  {| id := i; originalFile := file; originalUrl := u;
     compressedFile := None; compressedUrl := None;
     status := compressing; targetSize := 500%float; targetUnit := KB |}.

(** The page shows the store: one card per record and, once there is a
    record, the apply-to-all and clear-all buttons of the last render. *)
Definition Synced (w : World) : Prop :=
  cards (page w) = createCardElement <$> imageFilesState w ∧
  (imageFilesState w ≠ [] →
   applyToAllBtn_disabled (toolbar (page w)) = anyCompressing (imageFilesState w) ∧
   clearAllBtn_disabled (toolbar (page w)) = anyCompressing (imageFilesState w)).

(** What a handler may do to store and page: leave both, or end on a render. *)
Definition pageStep (w w' : World) : Prop :=
  (imageFilesState w' = imageFilesState w ∧ page w' = page w) ∨
  page w' = pageOf (imageFilesState w').

(** One record per id, every id below the counter. *)
Definition UniqueIds (w : World) : Prop :=
  NoDup (id <$> imageFilesState w) ∧
  Forall (λ i, i < nextId w) (id <$> imageFilesState w).

(** A record that is done holds its compressed file. *)
Definition doneHasFile (f : ImageFileState) : Prop :=
  status f = done → is_Some (compressedFile f).

#[global] Instance doneHasFile_dec f : Decision (doneHasFile f).
Proof. unfold doneHasFile. apply _. Defined.

(** Sample worlds, each reached from the loaded page by the events listed. *)
Definition doneWorld : World :=
  runEvents [FilesChosen [fileA]; Resolved 0 outA] (initialWorld toolbar0).

Definition mixedWorld : World :=
  runEvents [FilesChosen [fileA; fileB; fileC]; Resolved 0 outA; Rejected 0]
    (initialWorld toolbar0).

Definition reusedIdWorld : World :=
  runEvents [FilesChosen [fileA; fileB]; ClickRemove 0; Resolved 1 outB;
             ClickClearAll; FilesChosen [fileC]; Resolved 0 outA]
    (initialWorld toolbar0).

(** The same history up to the new file: the run of the removed a.png is
    still in flight when c.png gets the id 0 again. *)
Definition staleRunWorld : World :=
  runEvents [FilesChosen [fileA; fileB]; ClickRemove 0; Resolved 1 outB;
             ClickClearAll; FilesChosen [fileC]]
    (initialWorld toolbar0).

(** The object URLs a record holds, and those the store holds. *)
Definition urlsOf (f : ImageFileState) : list ObjectUrl :=
  originalUrl f :: match compressedUrl f with Some u => [u] | None => [] end.
Definition heldUrls (fs : list ImageFileState) : list ObjectUrl := fs ≫= urlsOf.

(** An object URL that was handed out, that no record holds and that was
    not revoked. *)
Definition Lost (u : ObjectUrl) (w : World) : Prop :=
  u < urlCounter w ∧
  (u ∉ heldUrls (imageFilesState w)) ∧ (u ∉ revokedUrls (trace w)).

(** What a handler may do with object URLs: revoke some the store holds,
    and store some it has just created. *)
Definition urlStep (w w' : World) : Prop :=
  urlCounter w ≤ urlCounter w' ∧
  (∀ u, u ∈ revokedUrls (trace w') →
        u ∈ revokedUrls (trace w) ∨ u ∈ heldUrls (imageFilesState w)) ∧
  (∀ u, u ∈ heldUrls (imageFilesState w') →
        u ∈ heldUrls (imageFilesState w) ∨ urlCounter w ≤ u).

(** A handler that touches no object URL. *)
Definition sameUrls (w w' : World) : Prop :=
  urlCounter w' = urlCounter w ∧
  revokedUrls (trace w') = revokedUrls (trace w) ∧
  heldUrls (imageFilesState w') = heldUrls (imageFilesState w).

(** One record after a run succeeded with [out], shown at [u]. *)
Definition asDone (out : File) (u : ObjectUrl) (f : ImageFileState) : ImageFileState :=
  {| id := id f; originalFile := originalFile f; originalUrl := originalUrl f;
     compressedFile := Some out; compressedUrl := Some u;
     status := done;
     targetSize := targetSize f; targetUnit := targetUnit f |}.

(** ** Download all *)

(** One call [zip.file(name, data)]. *)
Record ZipEntry := { entry_name : string; entry_data : File }.

(** What [handleDownloadAll] does beyond the calls logged in [World]. *)
Inductive ExportEffect :=
| ZipFile (entry : ZipEntry)
| GenerateAsync (entries : list ZipEntry)
| LinkClick (href : ObjectUrl) (download : string)
| Alert (message : string).

(** The page together with what only [handleDownloadAll] touches: whether
    the button shows its zipping label, the promises of [generateAsync]
    that are in flight (each with the entries its zip was given), and the
    log of the export's own calls. *)
Record Desk := {
  world : World;
  zippingShown : bool;
  generating : list (list ZipEntry);
  exportTrace : list ExportEffect;
}.

(** [downloadAllBtn.disabled = b] *)
Definition setDownloadDisabled (b : bool) (w : World) : World :=
  setPage
    {| cards := cards (page w);
       toolbar :=
         {| downloadAllBtn_disabled := b;
            applyToAllBtn_disabled := applyToAllBtn_disabled (toolbar (page w));
            clearAllBtn_disabled := clearAllBtn_disabled (toolbar (page w));
            downloadCountBadge := downloadCountBadge (toolbar (page w)) |} |} w.

(** The calls [zip.file(`compressed-${file.originalFile.name}`,
    file.compressedFile!)] over [filesToZip]. *)
Definition zipEntries (fs : list ImageFileState) : list ZipEntry :=
  omap (λ f, (λ c, {| entry_name := "compressed-" +:+ name (originalFile f);
                      entry_data := c |}) <$> compressedFile f)
    (filter (λ f, status f = done ∧ is_Some (compressedFile f)) fs).

(** [handleDownloadAll] up to its [await]. *)
Definition handleDownloadAll (d : Desk) : Desk :=
  let w := setDownloadDisabled true (world d) in
  let entries := zipEntries (imageFilesState w) in
  {| world := w; zippingShown := true;
     generating := generating d ++ [entries];
     exportTrace := exportTrace d ++ (ZipFile <$> entries) ++ [GenerateAsync entries] |}.

(** [handleDownloadAll] after its [await], when the archive was generated:
    the [try] block, then [finally]. *)
Definition resumeGenerated (d : Desk) : Desk :=
  let '(u, w1) := createObjectURL (world d) in
  let w2 := revokeObjectURL u w1 in
  {| world := setDownloadDisabled false w2; zippingShown := false;
     generating := generating d;
     exportTrace := exportTrace d ++ [LinkClick u "compressed-images.zip"] |}.

(** [handleDownloadAll] after its [await], when generating failed: the
    [catch] block, then [finally]. *)
Definition resumeGenerateFailed (d : Desk) : Desk :=
  {| world := setDownloadDisabled false (emit ConsoleError (world d));
     zippingShown := false;
     generating := generating d;
     exportTrace := exportTrace d ++ [Alert "There was an error creating the ZIP file."] |}.

Definition setWorld (w : World) (d : Desk) : Desk :=
  {| world := w; zippingShown := zippingShown d;
     generating := generating d; exportTrace := exportTrace d |}.

Definition setGenerating (zs : list (list ZipEntry)) (d : Desk) : Desk :=
  {| world := world d; zippingShown := zippingShown d;
     generating := zs; exportTrace := exportTrace d |}.

(** Every event of the page, the export included. *)
Inductive DeskEvent :=
| PageEvent (ev : Event)
| ClickDownloadAll
| Generated (k : nat)
| GenerateFailed (k : nat).

Definition dispatchDeskEvent (ev : DeskEvent) (d : Desk) : Desk :=
  match ev with
  | PageEvent e => setWorld (dispatchEvent e (world d)) d
  | ClickDownloadAll =>
      if downloadAllBtn_disabled (toolbar (page (world d))) then d
      else handleDownloadAll d
  | Generated k =>
      match generating d !! k with
      | Some _ => resumeGenerated (setGenerating (delete k (generating d)) d)
      | None => d
      end
  | GenerateFailed k =>
      match generating d !! k with
      | Some _ => resumeGenerateFailed (setGenerating (delete k (generating d)) d)
      | None => d
      end
  end.

Definition initialDesk (g : GlobalUI) : Desk :=
  {| world := initialWorld g; zippingShown := false;
     generating := []; exportTrace := [] |}.

Definition runDesk (evs : list DeskEvent) (d : Desk) : Desk :=
  foldl (λ acc ev, dispatchDeskEvent ev acc) d evs.

(** ** Further vocabulary *)

(** A record that is done holds its compressed file and its object URL. *)
Definition doneHasBoth (f : ImageFileState) : Prop :=
  status f = done → is_Some (compressedFile f) ∧ is_Some (compressedUrl f).

(** The object URLs in use are sound: the store holds no URL twice, only
    URLs that were handed out and are not revoked, and no URL was revoked
    twice. *)
Definition UrlsSound (w : World) : Prop :=
  NoDup (heldUrls (imageFilesState w)) ∧
  NoDup (revokedUrls (trace w)) ∧
  (∀ u, u ∈ heldUrls (imageFilesState w) → u < urlCounter w) ∧
  (∀ u, u ∈ revokedUrls (trace w) → u < urlCounter w) ∧
  (∀ u, u ∈ heldUrls (imageFilesState w) → u ∉ revokedUrls (trace w)).

(** Every record that is compressing has a run in flight for its id. *)
Definition CompressingHasRun (w : World) : Prop :=
  ∀ f, f ∈ imageFilesState w → status f = compressing →
       id f ∈ run_id <$> inFlight w.

(** What a handler may do with runs: it cancels none, and a record it
    leaves compressing either has a run started for its id or stood for a
    compressing record with that id before. *)
Definition runStep (w w' : World) : Prop :=
  (∀ x, x ∈ run_id <$> inFlight w → x ∈ run_id <$> inFlight w') ∧
  (∀ f', f' ∈ imageFilesState w' → status f' = compressing →
     id f' ∈ run_id <$> inFlight w' ∨
     ∃ f, f ∈ imageFilesState w ∧ id f = id f' ∧ status f = compressing).

(** What holds of the page after every sequence of events. *)
Definition DeskSound (d : Desk) : Prop :=
  Synced (world d) ∧ UniqueIds (world d) ∧
  Forall doneHasBoth (imageFilesState (world d)) ∧
  UrlsSound (world d) ∧ CompressingHasRun (world d).

Definition isPageEvent (ev : DeskEvent) : bool :=
  match ev with PageEvent _ => true | _ => false end.

(** The run [processFiles] starts for a new record. *)
Definition defaultRun (f : ImageFileState) : Pending :=
  {| run_id := id f; run_file := originalFile f;
     run_options := compressionOptions (500 * 1024)%float |}.

(** * Properties *)

(** ** The store *)

Section Store.
Implicit Types (fs : list ImageFileState) (f : ImageFileState).
Implicit Types (i j : nat) (u : Partial).

Lemma find_cons i f fs :
  find i (f :: fs) = if decide (id f = i) then Some f else find i fs.
Proof.
  unfold find. simpl. case_decide; [done|].
  by destruct (list_find _ fs) as [[??]|].
Qed.

Lemma findIndex_cons i f fs :
  findIndex i (f :: fs) = if decide (id f = i) then Some 0 else S <$> findIndex i fs.
Proof.
  unfold findIndex. simpl. case_decide; [done|].
  by destruct (list_find _ fs) as [[??]|].
Qed.

Lemma updated_cons i u f fs :
  updated i u (f :: fs) =
  if decide (id f = i) then merge f u :: fs else f :: updated i u fs.
Proof.
  unfold updated. simpl. case_decide; [done|].
  by destruct (list_find _ fs) as [[??]|].
Qed.

Lemma findIndex_find i fs : findIndex i fs = None ↔ find i fs = None.
Proof. unfold findIndex, find. by destruct (list_find _ fs) as [[??]|]. Qed.

Lemma find_Some_elem i f fs : find i fs = Some f → f ∈ fs ∧ id f = i.
Proof.
  unfold find. destruct (list_find _ fs) as [[k g]|] eqn:E; [|done].
  intros [= ->]. apply list_find_Some in E as (? & ? & _).
  split; [by eapply list_elem_of_lookup_2|done].
Qed.

(** The update touches the record [findIndex] points at and no other. *)
Lemma updated_alter i u fs :
  updated i u fs =
  match findIndex i fs with
  | Some k => alter (λ f, merge f u) k fs
  | None => fs
  end.
Proof.
  induction fs as [|f fs IH]; [done|].
  rewrite updated_cons, findIndex_cons. case_decide; [done|].
  rewrite IH. by destruct (findIndex i fs).
Qed.

Lemma updated_absent i u fs : find i fs = None → updated i u fs = fs.
Proof. rewrite updated_alter. by intros ->%findIndex_find. Qed.

Lemma updated_length i u fs : length (updated i u fs) = length fs.
Proof.
  rewrite updated_alter. destruct (findIndex i fs); [|done].
  apply length_alter.
Qed.

Lemma updated_ids i u fs :
  upd_id u = None → id <$> updated i u fs = id <$> fs.
Proof.
  intros Hu. induction fs as [|f fs IH]; [done|].
  rewrite updated_cons. case_decide; rewrite !fmap_cons; [|by rewrite IH].
  simpl. by rewrite Hu.
Qed.

Lemma find_updated i u fs :
  upd_id u = None → find i (updated i u fs) = (λ f, merge f u) <$> find i fs.
Proof.
  intros Hu. induction fs as [|f fs IH]; [done|].
  rewrite updated_cons, find_cons. case_decide.
  - rewrite find_cons. simpl. rewrite Hu. simpl. by rewrite decide_True.
  - rewrite find_cons. by rewrite decide_False.
Qed.

Lemma find_updated_ne i j u fs :
  i ≠ j → upd_id u = None → find j (updated i u fs) = find j fs.
Proof.
  intros Hij Hu. induction fs as [|f fs IH]; [done|].
  rewrite updated_cons. case_decide.
  - rewrite !find_cons. simpl. rewrite Hu. simpl.
    rewrite !decide_False by congruence. done.
  - rewrite !find_cons. by rewrite IH.
Qed.

(** With one record per id, the update is a map over the array. *)
Lemma updated_map i u fs :
  NoDup (id <$> fs) →
  updated i u fs = (λ f, if decide (id f = i) then merge f u else f) <$> fs.
Proof.
  induction fs as [|f fs IH]; [done|].
  rewrite fmap_cons, NoDup_cons. intros [Hf Hfs].
  rewrite updated_cons, fmap_cons. case_decide as Hi.
  - f_equal. symmetry. rewrite <- (list_fmap_id fs) at 2.
    apply list_fmap_ext. intros k g Hg. simpl.
    rewrite decide_False; [done|].
    intros Hgi. apply Hf. rewrite Hi, <- Hgi.
    apply list_elem_of_fmap_2. by eapply list_elem_of_lookup_2.
  - f_equal. by apply IH.
Qed.

Lemma find_NoDup k f fs :
  NoDup (id <$> fs) → fs !! k = Some f → find (id f) fs = Some f.
Proof.
  revert k. induction fs as [|g fs IH]; intros k; [done|].
  rewrite fmap_cons, NoDup_cons. intros [Hg Hfs] Hk.
  rewrite find_cons. destruct k as [|k]; simpl in Hk.
  - simplify_eq. by rewrite decide_True.
  - rewrite decide_False; [by eapply IH|].
    intros Hgi. apply Hg. rewrite Hgi.
    apply list_elem_of_fmap_2. by eapply list_elem_of_lookup_2.
Qed.
End Store.

(** ** The handlers, one by one *)

(** Unfolds the bookkeeping on [World] so that two worlds can be compared
    field by field. *)
Ltac unfold_world :=
  unfold render, awaitImageCompression, updateFileState, revokeObjectURL,
    createObjectURL, emit, setFiles, setNextId, setPage, setUrlCounter,
    setInFlight in *; simpl in *.

Ltac world_eq :=
  unfold_world; rewrite <- ?app_assoc; simpl; try reflexivity.

Section Handlers.
Implicit Types (w : World) (fs : list ImageFileState) (f : ImageFileState).
Implicit Types (i k : nat).

Lemma setFiles_same w : setFiles (imageFilesState w) w = w.
Proof. by destruct w. Qed.

Lemma updateFileState_absent i u w :
  find i (imageFilesState w) = None → updateFileState i u w = w.
Proof.
  intros H. unfold updateFileState. rewrite updated_absent by done.
  apply setFiles_same.
Qed.

Lemma list_find_updated i k f g fs :
  list_find (λ f, id f = i) fs = Some (k, f) → id g = i →
  list_find (λ f, id f = i) (<[k:=g]> fs) = Some (k, g).
Proof.
  intros (Hk & Hf & Hleast)%list_find_Some Hg. apply list_find_Some.
  split_and!; [|done|].
  - apply list_lookup_insert_eq. by eapply lookup_lt_Some.
  - intros j h Hj Hlt. rewrite list_lookup_insert_ne in Hj by lia. eauto.
Qed.

(** [compressToTargetSize] started for a stored id: the record is marked,
    the page rendered, and one call of [imageCompression] is in flight. *)
Lemma compressToTargetSize_found i k f bytes w :
  list_find (λ f, id f = i) (imageFilesState w) = Some (k, f) →
  let fs' := <[k := merge f markCompressing]> (imageFilesState w) in
  let run := {| run_id := i; run_file := originalFile f;
                run_options := compressionOptions bytes |} in
  compressToTargetSize i bytes false w =
  {| imageFilesState := fs'; nextId := nextId w; page := pageOf fs';
     urlCounter := urlCounter w; inFlight := inFlight w ++ [run];
     trace := trace w ++ [Render fs'; ImageCompression run] |}.
Proof.
  intros Hfind. unfold compressToTargetSize, find. rewrite Hfind. simpl.
  unfold updateFileState, updated. rewrite Hfind. world_eq.
Qed.

Lemma compressToTargetSize_quiet i k f bytes w :
  list_find (λ f, id f = i) (imageFilesState w) = Some (k, f) →
  let run := {| run_id := i; run_file := originalFile f;
                run_options := compressionOptions bytes |} in
  compressToTargetSize i bytes true w =
  {| imageFilesState := imageFilesState w; nextId := nextId w; page := page w;
     urlCounter := urlCounter w; inFlight := inFlight w ++ [run];
     trace := trace w ++ [ImageCompression run] |}.
Proof.
  intros Hfind. unfold compressToTargetSize, find. rewrite Hfind. by world_eq.
Qed.

Lemma compressToTargetSize_absent i bytes s w :
  find i (imageFilesState w) = None → compressToTargetSize i bytes s w = w.
Proof. intros H. unfold compressToTargetSize. by rewrite H. Qed.

Lemma runCompressionForId_found i k f w :
  list_find (λ f, id f = i) (imageFilesState w) = Some (k, f) →
  runCompressionForId i w =
  compressToTargetSize i (targetSize f * multiplier (targetUnit f))%float false w.
Proof. intros Hfind. unfold runCompressionForId, find. by rewrite Hfind. Qed.

Lemma runCompressionForId_absent i w :
  find i (imageFilesState w) = None → runCompressionForId i w = w.
Proof. intros H. unfold runCompressionForId. by rewrite H. Qed.
End Handlers.

(** ** Reset of one card *)

Lemma handleReset_absent (i : nat) (w : World) :
  find i (imageFilesState w) = None → handleReset i w = w.
Proof. intros H. unfold handleReset. by rewrite H. Qed.

Lemma handleReset_found (i k : nat) (f : ImageFileState) (w : World) :
  list_find (λ f, id f = i) (imageFilesState w) = Some (k, f) →
  let fs' := <[k := asReset f]> (imageFilesState w) in
  let run := {| run_id := i; run_file := originalFile f;
                run_options := compressionOptions (500 * 1024)%float |} in
  handleReset i w =
  {| imageFilesState := fs'; nextId := nextId w; page := pageOf fs';
     urlCounter := urlCounter w; inFlight := inFlight w ++ [run];
     trace := trace w ++
       match compressedUrl f with
       | Some u => [RevokeObjectURL u]
       | None => []
       end ++ [Render fs'; ImageCompression run] |}.
Proof.
  intros Hfind.
  pose proof Hfind as (Hk & Hid & _)%list_find_Some.
  unfold handleReset, find. rewrite Hfind. simpl.
  set (w1 := match compressedUrl f with Some u => _ | None => w end).
  assert (Hw1 : imageFilesState w1 = imageFilesState w)
    by (subst w1; by destruct (compressedUrl f)).
  assert (Hfind' : list_find (λ f, id f = i)
            (imageFilesState (updateFileState i resetTarget w1))
          = Some (k, merge f resetTarget)).
  { unfold updateFileState, updated. simpl. rewrite Hw1, Hfind.
    by eapply list_find_updated. }
  rewrite (runCompressionForId_found _ _ _ _ Hfind').
  rewrite (compressToTargetSize_found _ _ _ _ _ Hfind').
  unfold updateFileState, updated. simpl. rewrite Hw1, Hfind.
  rewrite list_insert_insert_eq.
  subst w1. destruct (compressedUrl f); by world_eq.
Qed.

(** C10. [handleReset] on a stored id revokes the record's compressed
    object URL when it has one, clears [compressedFile] and
    [compressedUrl], restores the default target of 500 KB and starts one
    fresh run with that target (500 * 1024 bytes); on an id that is not
    stored it changes nothing and starts nothing. *)
Theorem handleReset_spec (i : nat) (w : World) :
  match list_find (λ f, id f = i) (imageFilesState w) with
  | None => handleReset i w = w
  | Some (k, f) =>
      let fs' := <[k := asReset f]> (imageFilesState w) in
      let run := {| run_id := i; run_file := originalFile f;
                    run_options := compressionOptions (500 * 1024)%float |} in
      handleReset i w =
      {| imageFilesState := fs'; nextId := nextId w; page := pageOf fs';
         urlCounter := urlCounter w; inFlight := inFlight w ++ [run];
         trace := trace w ++
           match compressedUrl f with
           | Some u => [RevokeObjectURL u]
           | None => []
           end ++ [Render fs'; ImageCompression run] |}
  end.
Proof.
  destruct (list_find _ _) as [[k f]|] eqn:Hfind.
  - by apply handleReset_found.
  - apply handleReset_absent. unfold find. by rewrite Hfind.
Qed.

(** ** The size budget of a run *)

Example default_budget :
  (500 * multiplier KB)%float = 512000%float ∧
  maxSizeMB (compressionOptions (500 * multiplier KB)%float) = 0.48828125%float ∧
  maxSizeMB (compressionOptions (2 * multiplier MB)%float) = 2%float.
Proof. by vm_compute. Qed.

(** C7. A run started for a stored record with target [(value, unit)] calls
    [imageCompression] once, with the budget [value * 1024] bytes for KB
    and [value * 1048576] bytes for MB, handed over in [maxSizeMB] (bytes
    / 1024 / 1024); the arithmetic is that of binary64.  When the promise
    settles, no further call is started. *)
Theorem runCompressionForId_budget (i : nat) (w : World) :
  match list_find (λ f, id f = i) (imageFilesState w) with
  | None => runCompressionForId i w = w
  | Some (k, f) =>
      let bytes := match targetUnit f with
                   | KB => (targetSize f * 1024)%float
                   | MB => (targetSize f * 1048576)%float
                   end in
      let run := {| run_id := i; run_file := originalFile f;
                    run_options := {| maxSizeMB := (bytes / 1024 / 1024)%float;
                                      maxWidthOrHeight := 1920;
                                      useWebWorker := true |} |} in
      let fs' := <[k := asCompressing f]> (imageFilesState w) in
      runCompressionForId i w =
      {| imageFilesState := fs'; nextId := nextId w; page := pageOf fs';
         urlCounter := urlCounter w; inFlight := inFlight w ++ [run];
         trace := trace w ++ [Render fs'; ImageCompression run] |}
  end ∧
  (∀ run out w', inFlight (resumeResolved run out w') = inFlight w') ∧
  (∀ run w', inFlight (resumeRejected run w') = inFlight w').
Proof.
  split_and!; [|done..].
  destruct (list_find _ _) as [[k f]|] eqn:Hfind.
  2:{ apply runCompressionForId_absent. unfold find. by rewrite Hfind. }
  rewrite (runCompressionForId_found _ _ _ _ Hfind).
  rewrite (compressToTargetSize_found _ _ _ _ _ Hfind).
  by destruct (targetUnit f).
Qed.

(** ** A run that fails *)

(** X20. When the promise of a run rejects, the record that the store
    holds under the run's id at that moment gets status [error] and keeps
    every other field, its compressed file and compressed object URL
    included; the records under other ids are untouched, no object URL is
    created or revoked, and nothing happens to the store when the id is no
    longer there.  The record is found by id alone: whether it still is the
    record the run was started for is not looked at. *)
Theorem resumeRejected_spec (run : Pending) (w : World) :
  let fs' := match findIndex (run_id run) (imageFilesState w) with
             | Some k => alter asFailed k (imageFilesState w)
             | None => imageFilesState w
             end in
  resumeRejected run w =
  {| imageFilesState := fs'; nextId := nextId w; page := pageOf fs';
     urlCounter := urlCounter w; inFlight := inFlight w;
     trace := trace w ++ [ConsoleError; Render fs'] |}.
Proof.
  unfold resumeRejected. unfold_world. rewrite updated_alter.
  rewrite <- app_assoc. by destruct (findIndex _ _).
Qed.

(** ** Apply to all: validation *)



(** ** The store after each handler *)

Section StoreAfter.
Implicit Types (w : World) (fs : list ImageFileState) (f : ImageFileState).
Implicit Types (i k : nat).

Lemma compressToTargetSize_files i bytes w :
  imageFilesState (compressToTargetSize i bytes false w)
  = updated i markCompressing (imageFilesState w).
Proof.
  destruct (list_find (λ f, id f = i) (imageFilesState w)) as [[k f]|] eqn:Hfind.
  - rewrite (compressToTargetSize_found _ _ _ _ _ Hfind). simpl.
    unfold updated. by rewrite Hfind.
  - assert (find i (imageFilesState w) = None) by (unfold find; by rewrite Hfind).
    by rewrite compressToTargetSize_absent, updated_absent.
Qed.

Lemma compressToTargetSize_quiet_files i bytes w :
  imageFilesState (compressToTargetSize i bytes true w) = imageFilesState w.
Proof.
  unfold compressToTargetSize. by destruct (find i (imageFilesState w)).
Qed.

Lemma compressToTargetSize_nextId i bytes s w :
  nextId (compressToTargetSize i bytes s w) = nextId w.
Proof.
  unfold compressToTargetSize. destruct (find i (imageFilesState w)); [|done].
  by destruct s.
Qed.

Lemma runCompressionForId_files i w :
  imageFilesState (runCompressionForId i w)
  = updated i markCompressing (imageFilesState w).
Proof.
  unfold runCompressionForId.
  destruct (find i (imageFilesState w)) eqn:Hfind.
  - apply compressToTargetSize_files.
  - by rewrite updated_absent.
Qed.

Lemma runCompressionForId_nextId i w : nextId (runCompressionForId i w) = nextId w.
Proof.
  unfold runCompressionForId. destruct (find i (imageFilesState w)); [|done].
  apply compressToTargetSize_nextId.
Qed.

Lemma foldl_runCompressionForId_files (l : list ImageFileState) w :
  imageFilesState (foldl (λ acc file, runCompressionForId (id file) acc) w l)
  = foldl (λ acc file, updated (id file) markCompressing acc) (imageFilesState w) l.
Proof.
  revert w. induction l as [|f l IH]; intros w; [done|].
  simpl. by rewrite IH, runCompressionForId_files.
Qed.

Lemma foldl_runCompressionForId_nextId (l : list ImageFileState) w :
  nextId (foldl (λ acc file, runCompressionForId (id file) acc) w l) = nextId w.
Proof.
  revert w. induction l as [|f l IH]; intros w; [done|].
  simpl. by rewrite IH, runCompressionForId_nextId.
Qed.

Lemma foldl_updated_ids (l : list ImageFileState) u fs :
  upd_id u = None →
  id <$> foldl (λ acc file, updated (id file) u acc) fs l = id <$> fs.
Proof.
  intros Hu. revert fs. induction l as [|f l IH]; intros fs; [done|].
  simpl. by rewrite IH, updated_ids.
Qed.

Lemma newFileStates_spec (files : list File) w :
  newFileStates files w =
  (imap (λ n file, newRecord (nextId w + n) file (urlCounter w + n)) files,
   {| imageFilesState := imageFilesState w;
      nextId := nextId w + length files; page := page w;
      urlCounter := urlCounter w + length files; inFlight := inFlight w;
      trace := trace w ++ (CreateObjectURL <$> seq (urlCounter w) (length files)) |}).
Proof.
  revert w. induction files as [|file files IH]; intros w.
  { simpl. rewrite !Nat.add_0_r, app_nil_r. by destruct w. }
  simpl. rewrite IH. simpl. rewrite !Nat.add_0_r. f_equal.
  - unfold newRecord. f_equal. apply imap_ext. intros n x _. simpl.
    by rewrite !Nat.add_succ_r.
  - rewrite !Nat.add_succ_r. simpl. by rewrite <- app_assoc.
Qed.

Lemma newRecord_ids (files : list File) (a b : nat) :
  id <$> imap (λ n file, newRecord (a + n) file (b + n)) files = seq a (length files).
Proof.
  revert a b. induction files as [|file files IH]; intros a b; [done|].
  rewrite imap_cons, fmap_cons. simpl. rewrite Nat.add_0_r. f_equal.
  rewrite <- (IH (S a) (S b)). f_equal. apply imap_ext. intros n x _. simpl.
  by rewrite !Nat.add_succ_r.
Qed.

Lemma processFiles_files (files : list File) w :
  let newFiles := imap (λ n file, newRecord (nextId w + n) file (urlCounter w + n)) files in
  imageFilesState (processFiles files w)
  = foldl (λ acc file, updated (id file) markCompressing acc)
      (imageFilesState w ++ newFiles) newFiles.
Proof.
  unfold processFiles. rewrite newFileStates_spec.
  by rewrite foldl_runCompressionForId_files.
Qed.

Lemma processFiles_ids (files : list File) w :
  id <$> imageFilesState (processFiles files w)
  = (id <$> imageFilesState w) ++ seq (nextId w) (length files).
Proof.
  rewrite processFiles_files. simpl.
  rewrite foldl_updated_ids by done.
  by rewrite fmap_app, newRecord_ids.
Qed.

Lemma processFiles_nextId (files : list File) w :
  nextId (processFiles files w) = nextId w + length files.
Proof.
  unfold processFiles. rewrite newFileStates_spec.
  by rewrite foldl_runCompressionForId_nextId.
Qed.

Lemma foldl_revokeBoth fs w :
  foldl (λ acc file, revokeBoth file acc) w fs =
  {| imageFilesState := imageFilesState w; nextId := nextId w; page := page w;
     urlCounter := urlCounter w; inFlight := inFlight w;
     trace := trace w ++ (fs ≫= revocations) |}.
Proof.
  revert w. induction fs as [|f fs IH]; intros w.
  { simpl. rewrite app_nil_r. by destruct w. }
  simpl. rewrite IH. unfold revokeBoth, revocations.
  destruct (compressedUrl f); world_eq.
Qed.
End StoreAfter.

(** ** Clear all *)

(** C8. [handleClearAll] revokes, record by record, the original object URL
    and the compressed one when there is one, then empties the store and
    sets the id counter back to 0 before it renders; the files chosen next
    get the ids 0, 1, ... again. *)
Theorem handleClearAll_spec (w : World) :
  handleClearAll w =
  {| imageFilesState := []; nextId := 0; page := pageOf [];
     urlCounter := urlCounter w; inFlight := inFlight w;
     trace := trace w ++ (imageFilesState w ≫= revocations) ++ [Render []] |} ∧
  ∀ file files,
    id <$> imageFilesState (processFiles (file :: files) (handleClearAll w))
    = seq 0 (S (length files)).
Proof.
  assert (Hclear : handleClearAll w =
    {| imageFilesState := []; nextId := 0; page := pageOf [];
       urlCounter := urlCounter w; inFlight := inFlight w;
       trace := trace w ++ (imageFilesState w ≫= revocations) ++ [Render []] |}).
  { unfold handleClearAll. rewrite foldl_revokeBoth. by world_eq. }
  split; [done|]. intros file files.
  rewrite processFiles_ids, Hclear. done.
Qed.

(** ** Apply to all: the batch *)

Section Batch.
Implicit Types (w : World) (fs l : list ImageFileState) (f g : ImageFileState).

Lemma NoDup_ids_inj fs f g :
  NoDup (id <$> fs) → f ∈ fs → g ∈ fs → id f = id g → f = g.
Proof.
  intros Hnd [a Ha]%list_elem_of_lookup [b Hb]%list_elem_of_lookup Hid.
  assert (a = b) as ->; [|congruence].
  eapply NoDup_lookup; [done| |].
  - rewrite list_lookup_fmap, Ha. done.
  - rewrite list_lookup_fmap, Hb. simpl. by rewrite Hid.
Qed.

Lemma foldl_updated_map u l fs :
  NoDup (id <$> fs) → upd_id u = None →
  (∀ f, merge (merge f u) u = merge f u) →
  foldl (λ acc file, updated (id file) u acc) fs l
  = (λ f, if decide (id f ∈ id <$> l) then merge f u else f) <$> fs.
Proof.
  intros Hnd Hu Hidem. revert fs Hnd.
  induction l as [|g l IH]; intros fs Hnd; simpl.
  { rewrite <- (list_fmap_id fs) at 1. apply list_fmap_ext. by intros k f _. }
  rewrite IH by (by rewrite updated_ids).
  rewrite updated_map by done. rewrite <- list_fmap_compose.
  apply list_fmap_ext. intros k f _. simpl.
  assert (Hid : ∀ h, id (merge h u) = id h) by (intros h; simpl; by rewrite Hu).
  destruct (decide (id f = id g)) as [Hfg|Hfg].
  - rewrite (decide_True (P := id f ∈ id g :: _)) by (rewrite Hfg; left).
    case_decide; [apply Hidem|done].
  - destruct (decide (id f ∈ id <$> l)) as [Hin|Hin].
    + by rewrite decide_True by (by right).
    + rewrite decide_False; [done|].
      rewrite not_elem_of_cons. done.
Qed.

Lemma foldl_compressToTargetSize_quiet bytes l w :
  (∀ file, file ∈ l → ∃ g, find (id file) (imageFilesState w) = Some g
                          ∧ originalFile g = originalFile file) →
  let runs := (λ f, {| run_id := id f; run_file := originalFile f;
                       run_options := compressionOptions bytes |}) <$> l in
  foldl (λ acc file, compressToTargetSize (id file) bytes true acc) w l =
  {| imageFilesState := imageFilesState w; nextId := nextId w; page := page w;
     urlCounter := urlCounter w; inFlight := inFlight w ++ runs;
     trace := trace w ++ (ImageCompression <$> runs) |}.
Proof.
  revert w. induction l as [|f l IH]; intros w Hfound; simpl.
  { rewrite !app_nil_r. by destruct w. }
  destruct (Hfound f) as (g & Hg & Hfile); [left|].
  unfold find in Hg.
  destruct (list_find _ _) as [[k g']|] eqn:Hfind; simplify_eq/=.
  rewrite (compressToTargetSize_quiet _ _ _ _ _ Hfind), IH.
  - simpl. rewrite Hfile, <- !app_assoc. done.
  - simpl. intros file Hin. apply Hfound. by right.
Qed.
End Batch.

(** C5. With a size that passes the check and one record per id,
    [handleApplyToAll] picks the records whose status is not [error]
    (those compressing or done), gives all of them the new target and the
    status [compressing], leaves the [error] records as they are, renders
    once on that batch, and only then starts one run per picked record, in
    store order, each with the budget of the new target. *)
Theorem handleApplyToAll_batch (newSize : float) (newUnit : SizeUnit) (w : World) :
  is_nan newSize = false → (newSize <=? 0)%float = false →
  NoDup (id <$> imageFilesState w) →
  let eligible := filter (λ f, status f ≠ error) (imageFilesState w) in
  let batch := (λ f, if decide (status f = error) then f
                     else asRetargeted newSize newUnit f) <$> imageFilesState w in
  let bytes := match newUnit with
               | KB => (newSize * 1024)%float
               | MB => (newSize * 1048576)%float
               end in
  let runs := (λ f, {| run_id := id f; run_file := originalFile f;
                       run_options := compressionOptions bytes |}) <$> eligible in
  handleApplyToAll newSize newUnit w =
  match eligible with
  | [] => w
  | _ :: _ =>
      {| imageFilesState := batch; nextId := nextId w; page := pageOf batch;
         urlCounter := urlCounter w; inFlight := inFlight w ++ runs;
         trace := trace w ++ Render batch :: (ImageCompression <$> runs) |}
  end.
Proof.
  intros Hnan Hpos Hnd eligible batch bytes runs.
  unfold handleApplyToAll. rewrite Hnan, Hpos. simpl. fold eligible.
  destruct eligible as [|e0 rest] eqn:He; [done|]. simpl bool_decide. cbv iota.
  rewrite <- He.
  assert (Hbatch :
    imageFilesState (foldl (λ acc file,
        updateFileState (id file) (bulkTarget newSize newUnit) acc) w eligible)
    = batch ∧
    foldl (λ acc file,
        updateFileState (id file) (bulkTarget newSize newUnit) acc) w eligible
    = setFiles batch w).
  { assert (Hgen : ∀ l w0,
      foldl (λ acc file, updateFileState (id file) (bulkTarget newSize newUnit) acc) w0 l
      = setFiles (foldl (λ acc file, updated (id file) (bulkTarget newSize newUnit) acc)
                   (imageFilesState w0) l) w0).
    { induction l as [|f l IH]; intros w0; simpl.
      - by destruct w0.
      - rewrite IH. by unfold updateFileState, setFiles. }
    rewrite Hgen. rewrite foldl_updated_map by done.
    assert (Heq : (λ f, if decide (id f ∈ id <$> eligible)
                        then merge f (bulkTarget newSize newUnit) else f)
                  <$> imageFilesState w = batch).
    { subst batch. apply list_fmap_ext. intros k f Hk. simpl.
      assert (Hf : f ∈ imageFilesState w) by (by eapply list_elem_of_lookup_2).
      destruct (decide (status f = error)) as [Herr|Herr].
      - rewrite decide_False; [done|].
        intros (g & Hid & Hg)%list_elem_of_fmap. subst eligible.
        apply list_elem_of_filter in Hg as [Hgs Hg].
        assert (f = g) by (by eapply NoDup_ids_inj). congruence.
      - rewrite decide_True; [done|].
        apply list_elem_of_fmap_2. subst eligible. by apply list_elem_of_filter. }
    by rewrite Heq. }
  destruct Hbatch as [_ ->].
  rewrite foldl_compressToTargetSize_quiet.
  - assert (Hbytes : (newSize * multiplier newUnit)%float = bytes)
      by (subst bytes; by destruct newUnit).
    rewrite Hbytes. subst runs. rewrite <- He. by world_eq.
  - intros file Hfile. simpl.
    subst eligible. apply list_elem_of_filter in Hfile as [Hs Hin].
    apply list_elem_of_lookup in Hin as [k Hk].
    exists (asRetargeted newSize newUnit file). split; [|done].
    assert (Hid : id file = id (asRetargeted newSize newUnit file)) by done.
    rewrite Hid. apply (find_NoDup k).
    + subst batch. rewrite <- list_fmap_compose.
      erewrite list_fmap_ext; [exact Hnd|]. intros ? f _. simpl.
      by case_decide.
    + subst batch. rewrite list_lookup_fmap, Hk. simpl.
      by rewrite decide_False.
Qed.

(** ** Worlds the page can reach: the page shows the store *)

Section PageSync.
Implicit Types (w : World) (fs : list ImageFileState) (f : ImageFileState).
Implicit Types (i k : nat).

Lemma pageStep_refl w : pageStep w w.
Proof. by left. Qed.

Lemma pageStep_trans w1 w2 w3 : pageStep w1 w2 → pageStep w2 w3 → pageStep w1 w3.
Proof.
  intros [[Hf Hp]|Hfresh] [[Hf' Hp']|Hfresh']; try (by right).
  - left. split; congruence.
  - right. by rewrite Hp', Hf'.
Qed.

Lemma foldl_pageStep {A} (h : A → World → World) (l : list A) w :
  (∀ x w0, pageStep w0 (h x w0)) → pageStep w (foldl (λ acc x, h x acc) w l).
Proof.
  intros Hh. revert w. induction l as [|x l IH]; intros w; simpl.
  - apply pageStep_refl.
  - eapply pageStep_trans; [apply Hh|apply IH].
Qed.

Lemma compressToTargetSize_pageStep i bytes s w :
  pageStep w (compressToTargetSize i bytes s w).
Proof.
  destruct (list_find (λ f, id f = i) (imageFilesState w)) as [[k f]|] eqn:Hfind.
  - destruct s.
    + rewrite (compressToTargetSize_quiet _ _ _ _ _ Hfind). by left.
    + rewrite (compressToTargetSize_found _ _ _ _ _ Hfind). by right.
  - rewrite compressToTargetSize_absent; [apply pageStep_refl|].
    unfold find. by rewrite Hfind.
Qed.

Lemma runCompressionForId_pageStep i w : pageStep w (runCompressionForId i w).
Proof.
  unfold runCompressionForId. destruct (find i (imageFilesState w)).
  - apply compressToTargetSize_pageStep.
  - apply pageStep_refl.
Qed.

Lemma render_pageStep w0 w : pageStep w0 (render w).
Proof. by right. Qed.

Lemma processFiles_pageStep files w : pageStep w (processFiles files w).
Proof.
  unfold processFiles. destruct (newFileStates files w) as [newFiles w1].
  eapply pageStep_trans; [apply render_pageStep|].
  apply (foldl_pageStep (λ file, runCompressionForId (id file))).
  intros. apply runCompressionForId_pageStep.
Qed.

Lemma handleTargetSizeApply_found i k f newSize newUnit w :
  list_find (λ f, id f = i) (imageFilesState w) = Some (k, f) →
  let f' := merge (merge f (newTarget newSize newUnit)) markCompressing in
  let fs' := <[k := f']> (imageFilesState w) in
  let run := {| run_id := i; run_file := originalFile f;
                run_options :=
                  compressionOptions (newSize * multiplier newUnit)%float |} in
  handleTargetSizeApply i newSize newUnit w =
  {| imageFilesState := fs'; nextId := nextId w; page := pageOf fs';
     urlCounter := urlCounter w; inFlight := inFlight w ++ [run];
     trace := trace w ++ [Render fs'; ImageCompression run] |}.
Proof.
  intros Hfind.
  pose proof Hfind as (Hk & Hid & _)%list_find_Some.
  unfold handleTargetSizeApply.
  assert (Hfind' : list_find (λ f, id f = i)
            (imageFilesState (updateFileState i (newTarget newSize newUnit) w))
          = Some (k, merge f (newTarget newSize newUnit))).
  { unfold updateFileState, updated. simpl. rewrite Hfind.
    by eapply list_find_updated. }
  rewrite (runCompressionForId_found _ _ _ _ Hfind').
  rewrite (compressToTargetSize_found _ _ _ _ _ Hfind').
  unfold updateFileState, updated. simpl. rewrite Hfind.
  rewrite list_insert_insert_eq. by world_eq.
Qed.

Lemma handleTargetSizeApply_absent i newSize newUnit w :
  find i (imageFilesState w) = None → handleTargetSizeApply i newSize newUnit w = w.
Proof.
  intros H. unfold handleTargetSizeApply.
  rewrite updateFileState_absent by done. by apply runCompressionForId_absent.
Qed.

Lemma handleTargetSizeApply_pageStep i newSize newUnit w :
  pageStep w (handleTargetSizeApply i newSize newUnit w).
Proof.
  destruct (list_find (λ f, id f = i) (imageFilesState w)) as [[k f]|] eqn:Hfind.
  - rewrite (handleTargetSizeApply_found _ _ _ _ _ _ Hfind). by right.
  - rewrite handleTargetSizeApply_absent; [apply pageStep_refl|].
    unfold find. by rewrite Hfind.
Qed.

Lemma handleReset_pageStep i w : pageStep w (handleReset i w).
Proof.
  destruct (list_find (λ f, id f = i) (imageFilesState w)) as [[k f]|] eqn:Hfind.
  - rewrite (handleReset_found _ _ _ _ Hfind). by right.
  - rewrite handleReset_absent; [apply pageStep_refl|].
    unfold find. by rewrite Hfind.
Qed.

Lemma handleApplyToAll_pageStep newSize newUnit w :
  pageStep w (handleApplyToAll newSize newUnit w).
Proof.
  unfold handleApplyToAll.
  destruct (is_nan newSize || (newSize <=? 0)%float); [by left|].
  case_bool_decide; [apply pageStep_refl|].
  eapply pageStep_trans; [apply render_pageStep|].
  apply (foldl_pageStep (λ file, compressToTargetSize (id file) _ true)).
  intros. apply compressToTargetSize_pageStep.
Qed.

Lemma dispatchEvent_pageStep ev w : pageStep w (dispatchEvent ev w).
Proof.
  destruct ev as [files|k|k s u|k|s u| |k c|k|call]; simpl.
  - apply processFiles_pageStep.
  - destruct (cards (page w) !! k); [by right|apply pageStep_refl].
  - destruct (cards (page w) !! k) as [card|]; [|apply pageStep_refl].
    destruct (canRerun card); [|apply pageStep_refl].
    apply handleTargetSizeApply_pageStep.
  - destruct (cards (page w) !! k) as [card|]; [|apply pageStep_refl].
    destruct (canRerun card); [|apply pageStep_refl].
    apply handleReset_pageStep.
  - destruct (applyToAllBtn_disabled _); [apply pageStep_refl|].
    apply handleApplyToAll_pageStep.
  - destruct (clearAllBtn_disabled _); [apply pageStep_refl|]. by right.
  - destruct (inFlight w !! k); [by right|apply pageStep_refl].
  - destruct (inFlight w !! k); [by right|apply pageStep_refl].
  - destruct (templateOnly _); [apply pageStep_refl|].
    destruct call as [i|i s u|i]; unfold runCall.
    + by right.
    + apply handleTargetSizeApply_pageStep.
    + apply handleReset_pageStep.
Qed.

Lemma Synced_step w w' : Synced w → pageStep w w' → Synced w'.
Proof.
  intros [Hc Ht] [[Hf Hp]|Hfresh].
  - unfold Synced. by rewrite Hf, Hp.
  - unfold Synced. by rewrite Hfresh.
Qed.

Lemma Reachable_Synced w : Reachable w → Synced w.
Proof.
  induction 1 as [g|w ev _ IH]; [done|].
  eapply Synced_step; [done|apply dispatchEvent_pageStep].
Qed.
End PageSync.

(** ** Worlds the page can reach: ids and compressed files *)

Section StoreInvariants.
Implicit Types (w : World) (fs : list ImageFileState) (f : ImageFileState).
Implicit Types (i k : nat) (u : Partial).

Lemma updated_updated i u1 u2 fs :
  upd_id u1 = None →
  updated i u2 (updated i u1 fs) =
  match findIndex i fs with
  | Some k => alter (λ f, merge (merge f u1) u2) k fs
  | None => fs
  end.
Proof.
  intros Hu. induction fs as [|f fs IH]; [done|].
  rewrite updated_cons, findIndex_cons. case_decide as Hi.
  - rewrite updated_cons. simpl. rewrite Hu. simpl. by rewrite decide_True.
  - rewrite updated_cons, decide_False by done. rewrite IH.
    by destruct (findIndex i fs).
Qed.

Lemma handleTargetSizeApply_files i newSize newUnit w :
  imageFilesState (handleTargetSizeApply i newSize newUnit w)
  = updated i markCompressing
      (updated i (newTarget newSize newUnit) (imageFilesState w)).
Proof. unfold handleTargetSizeApply. by rewrite runCompressionForId_files. Qed.

Lemma handleReset_files i w :
  imageFilesState (handleReset i w)
  = updated i markCompressing (updated i resetTarget (imageFilesState w)).
Proof.
  unfold handleReset. destruct (find i (imageFilesState w)) eqn:Hfind.
  - rewrite runCompressionForId_files. by destruct (compressedUrl _).
  - rewrite (updated_absent i resetTarget) by done. by rewrite updated_absent.
Qed.

Lemma foldl_updateFileState_files (l : list ImageFileState) u w :
  imageFilesState (foldl (λ acc file, updateFileState (id file) u acc) w l)
  = foldl (λ acc file, updated (id file) u acc) (imageFilesState w) l.
Proof.
  revert w. induction l as [|f l IH]; intros w; [done|].
  simpl. by rewrite IH.
Qed.

Lemma foldl_compressToTargetSize_quiet_files bytes (l : list ImageFileState) w :
  imageFilesState
    (foldl (λ acc file, compressToTargetSize (id file) bytes true acc) w l)
  = imageFilesState w.
Proof.
  revert w. induction l as [|f l IH]; intros w; [done|].
  simpl. by rewrite IH, compressToTargetSize_quiet_files.
Qed.

Lemma handleApplyToAll_files newSize newUnit w :
  ∃ l : list ImageFileState,
    imageFilesState (handleApplyToAll newSize newUnit w)
    = foldl (λ acc file, updated (id file) (bulkTarget newSize newUnit) acc)
        (imageFilesState w) l.
Proof.
  unfold handleApplyToAll.
  destruct (is_nan newSize || (newSize <=? 0)%float); [by exists []|].
  case_bool_decide; [by exists []|].
  eexists. rewrite foldl_compressToTargetSize_quiet_files. simpl.
  by rewrite foldl_updateFileState_files.
Qed.

Lemma foldl_updateFileState_nextId (l : list ImageFileState) u w :
  nextId (foldl (λ acc file, updateFileState (id file) u acc) w l) = nextId w.
Proof.
  revert w. induction l as [|f l IH]; intros w; [done|].
  simpl. by rewrite IH.
Qed.

Lemma foldl_compressToTargetSize_quiet_nextId bytes (l : list ImageFileState) w :
  nextId (foldl (λ acc file, compressToTargetSize (id file) bytes true acc) w l)
  = nextId w.
Proof.
  revert w. induction l as [|f l IH]; intros w; [done|].
  simpl. by rewrite IH, compressToTargetSize_nextId.
Qed.

Lemma handlers_nextId :
  (∀ i s (un : SizeUnit) w, nextId (handleTargetSizeApply i s un w) = nextId w) ∧
  (∀ i w, nextId (handleReset i w) = nextId w) ∧
  (∀ s (un : SizeUnit) w, nextId (handleApplyToAll s un w) = nextId w) ∧
  (∀ i w, nextId (handleRemoveImage i w) = nextId w).
Proof.
  split_and!.
  - intros. unfold handleTargetSizeApply. by rewrite runCompressionForId_nextId.
  - intros. unfold handleReset. destruct (find _ _); [|done].
    rewrite runCompressionForId_nextId. by destruct (compressedUrl _).
  - intros. unfold handleApplyToAll.
    destruct (is_nan _ || _); [done|]. case_bool_decide; [done|].
    rewrite foldl_compressToTargetSize_quiet_nextId. simpl.
    apply foldl_updateFileState_nextId.
  - intros. unfold handleRemoveImage. simpl.
    destruct (find _ _) as [file|]; [|done].
    unfold revokeBoth. by destruct (compressedUrl file).
Qed.

Lemma handleRemoveImage_files i w :
  imageFilesState (handleRemoveImage i w)
  = filter (λ f, id f ≠ i) (imageFilesState w).
Proof.
  unfold handleRemoveImage. simpl. destruct (find _ _) as [file|]; [|done].
  unfold revokeBoth. by destruct (compressedUrl file).
Qed.

Lemma filter_ids i fs :
  id <$> filter (λ f, id f ≠ i) fs = filter (λ j, j ≠ i) (id <$> fs).
Proof.
  induction fs as [|f fs IH]; [done|].
  rewrite fmap_cons, !filter_cons. case_decide; [|done].
  by rewrite fmap_cons, IH.
Qed.

(** What an event does to the ids in the store and to the counter. *)
Lemma dispatchEvent_ids ev w :
  let ids := id <$> imageFilesState w in
  let ids' := id <$> imageFilesState (dispatchEvent ev w) in
  let n' := nextId (dispatchEvent ev w) in
  (ids' = ids ∧ n' = nextId w) ∨
  (∃ n, ids' = ids ++ seq (nextId w) n ∧ n' = nextId w + n) ∨
  (∃ i, ids' = filter (λ j, j ≠ i) ids ∧ n' = nextId w) ∨
  (ids' = [] ∧ n' = 0).
Proof.
  pose proof handlers_nextId as (Happly & Hreset & Hall & Hremove).
  destruct ev as [files|k|k s un|k|s un| |k c|k|call]; simpl.
  - right. left. exists (length files).
    by rewrite processFiles_ids, processFiles_nextId.
  - destruct (cards (page w) !! k) as [card|]; [|by left].
    right. right. left. exists (data_id card).
    rewrite handleRemoveImage_files, Hremove. split; [|done].
    apply filter_ids.
  - destruct (cards (page w) !! k) as [card|]; [|by left].
    destruct (canRerun card); [|by left]. left.
    by rewrite handleTargetSizeApply_files, !updated_ids, Happly.
  - destruct (cards (page w) !! k) as [card|]; [|by left].
    destruct (canRerun card); [|by left]. left.
    by rewrite handleReset_files, !updated_ids, Hreset.
  - destruct (applyToAllBtn_disabled _); [by left|]. left.
    destruct (handleApplyToAll_files s un w) as [l ->].
    by rewrite foldl_updated_ids, Hall.
  - destruct (clearAllBtn_disabled _); [by left|]. by right; right; right.
  - destruct (inFlight w !! k); [|by left]. left.
    unfold resumeResolved. simpl. by rewrite updated_ids.
  - destruct (inFlight w !! k); [|by left]. left.
    unfold resumeRejected. simpl. by rewrite updated_ids.
  - destruct (templateOnly _); [by left|].
    destruct call as [i|i s un|i]; unfold runCall.
    + right. right. left. exists i.
      rewrite handleRemoveImage_files, Hremove. split; [|done].
      apply filter_ids.
    + left. by rewrite handleTargetSizeApply_files, !updated_ids, Happly.
    + left. by rewrite handleReset_files, !updated_ids, Hreset.
Qed.

Lemma Reachable_UniqueIds w : Reachable w → UniqueIds w.
Proof.
  induction 1 as [g|w ev _ [Hnd Hlt]].
  { split; [apply NoDup_nil_2|apply Forall_nil_2]. }
  unfold UniqueIds.
  destruct (dispatchEvent_ids ev w)
    as [[-> ->]|[(n & -> & ->)|[(i & -> & ->)|[-> ->]]]].
  - done.
  - split.
    + apply NoDup_app. split_and!; [done| |apply NoDup_seq].
      intros j Hj Hseq. rewrite Forall_forall in Hlt.
      apply Hlt in Hj. apply elem_of_seq in Hseq. lia.
    + apply Forall_app. split.
      * eapply Forall_impl; [done|]. simpl. lia.
      * apply Forall_forall. intros j Hj. apply elem_of_seq in Hj. lia.
  - split.
    + by apply NoDup_filter.
    + apply Forall_forall. intros j [_ Hj]%list_elem_of_filter.
      rewrite Forall_forall in Hlt. by apply Hlt.
  - split; [apply NoDup_nil_2|apply Forall_nil_2].
Qed.
End StoreInvariants.

Section DoneHasFile.
Implicit Types (w : World) (fs : list ImageFileState) (f : ImageFileState).
Implicit Types (i k : nat) (u : Partial).

Lemma updated_Forall (P : ImageFileState → Prop) i u fs :
  (∀ f, P f → P (merge f u)) → Forall P fs → Forall P (updated i u fs).
Proof.
  intros Hu Hfs. rewrite updated_alter. destruct (findIndex i fs); [|done].
  apply Forall_alter; [done|]. intros f _. apply Hu.
Qed.

Lemma foldl_updated_Forall (P : ImageFileState → Prop) u
    (l : list ImageFileState) fs :
  (∀ f, P f → P (merge f u)) → Forall P fs →
  Forall P (foldl (λ acc file, updated (id file) u acc) fs l).
Proof.
  intros Hu. revert fs. induction l as [|g l IH]; intros fs Hfs; [done|].
  simpl. by apply IH, updated_Forall.
Qed.

Lemma dispatchEvent_doneHasFile ev w :
  Forall doneHasFile (imageFilesState w) →
  Forall doneHasFile (imageFilesState (dispatchEvent ev w)).
Proof.
  intros Hinv.
  destruct ev as [files|k|k s un|k|s un| |k c|k|call]; simpl.
  - rewrite processFiles_files. simpl.
    apply foldl_updated_Forall; [by intros f _ [=]|].
    apply Forall_app. split; [done|].
    apply Forall_lookup. intros n f Hn.
    rewrite list_lookup_imap in Hn.
    destruct (files !! n); simplify_eq/=. by intros [=].
  - destruct (cards (page w) !! k) as [card|]; [|done].
    rewrite handleRemoveImage_files.
    apply Forall_forall. intros f [_ Hf]%list_elem_of_filter.
    rewrite Forall_forall in Hinv. by apply Hinv.
  - destruct (cards (page w) !! k) as [card|]; [|done].
    destruct (canRerun card); [|done].
    rewrite handleTargetSizeApply_files.
    apply updated_Forall; [by intros f _ [=]|].
    by apply updated_Forall.
  - destruct (cards (page w) !! k) as [card|]; [|done].
    destruct (canRerun card); [|done].
    rewrite handleReset_files, updated_updated by done.
    destruct (findIndex _ _); [|done].
    apply Forall_alter; [done|]. by intros f _ _ [=].
  - destruct (applyToAllBtn_disabled _); [done|].
    destruct (handleApplyToAll_files s un w) as [l ->].
    apply foldl_updated_Forall; [by intros f _ [=]|done].
  - destruct (clearAllBtn_disabled _); [done|]. simpl. apply Forall_nil_2.
  - destruct (inFlight w !! k); [|done].
    unfold resumeResolved. simpl.
    apply updated_Forall; [|done]. intros f _ _. by eexists.
  - destruct (inFlight w !! k); [|done].
    unfold resumeRejected. simpl.
    apply updated_Forall; [by intros f _ [=]|done].
  - destruct (templateOnly _); [done|].
    destruct call as [i|i s un|i]; unfold runCall.
    + rewrite handleRemoveImage_files.
      apply Forall_forall. intros f [_ Hf]%list_elem_of_filter.
      rewrite Forall_forall in Hinv. by apply Hinv.
    + rewrite handleTargetSizeApply_files.
      apply updated_Forall; [by intros f _ [=]|].
      by apply updated_Forall.
    + rewrite handleReset_files, updated_updated by done.
      destruct (findIndex _ _); [|done].
      apply Forall_alter; [done|]. by intros f _ _ [=].
Qed.

Lemma Reachable_doneHasFile w :
  Reachable w → Forall doneHasFile (imageFilesState w).
Proof.
  induction 1 as [g|w ev _ IH]; [apply Forall_nil_2|].
  by apply dispatchEvent_doneHasFile.
Qed.

Lemma runEvents_Reachable evs w : Reachable w → Reachable (runEvents evs w).
Proof.
  revert w. induction evs as [|ev evs IH]; intros w Hw; [done|].
  simpl. apply IH. by constructor.
Qed.
End DoneHasFile.

(** ** The toolbar *)

Section Toolbar.
Implicit Types (fs : list ImageFileState) (f : ImageFileState).

Lemma some_true {A} (P : A → Prop) `{∀ x, Decision (P x)} (l : list A) :
  some P l = true ↔ ∃ x, x ∈ l ∧ P x.
Proof. unfold some. by rewrite bool_decide_eq_true, Exists_exists. Qed.

Lemma filter_positive {A} (P : A → Prop) `{∀ x, Decision (P x)} (l : list A) :
  0 < length (filter P l) ↔ ∃ x, x ∈ l ∧ P x.
Proof.
  split.
  - destruct (filter P l) as [|x k] eqn:E; simpl; [lia|]. intros _.
    assert (Hx : x ∈ filter P l) by (rewrite E; left).
    apply list_elem_of_filter in Hx as [??]. eauto.
  - intros (x & Hx & HP).
    assert (Hin : x ∈ filter P l) by (by apply list_elem_of_filter).
    destruct (filter P l); [by apply elem_of_nil in Hin|simpl; lia].
Qed.

Lemma readyToDownloadCount_done fs :
  Forall doneHasFile fs →
  readyToDownloadCount fs = length (filter (λ f, status f = done) fs).
Proof.
  unfold readyToDownloadCount. induction 1 as [|f fs Hf _ IH]; [done|].
  rewrite !filter_cons. destruct (decide (status f = done)) as [Hd|Hd].
  - rewrite decide_True by (split; [done|by apply Hf]). simpl. by rewrite IH.
  - rewrite decide_False by (by intros [? _]). done.
Qed.
End Toolbar.

(** C9. For every store the page can reach, what [updateGlobalUI]
    computes from it: the count on the download badge is the number of
    records with status done, [anyCompressing] holds exactly when some
    record is compressing, the download-all button is enabled exactly when
    that count is positive and nothing is compressing, and apply-to-all
    and clear-all are enabled exactly when nothing is compressing.  (The
    count is taken over the done records that hold a compressed file; in a
    store the page can reach every done record does.) *)
Theorem updateGlobalUI_spec (w : World) :
  Reachable w →
  let fs := imageFilesState w in
  let doneCount := readyToDownloadCount fs in
  let anyRunning := anyCompressing fs in
  doneCount = length (filter (λ f, status f = done) fs) ∧
  (anyRunning = true ↔ ∃ f, f ∈ fs ∧ status f = compressing) ∧
  (downloadAllBtn_disabled (updateGlobalUI fs) = false
     ↔ 0 < doneCount ∧ anyRunning = false) ∧
  (applyToAllBtn_disabled (updateGlobalUI fs) = false ↔ anyRunning = false) ∧
  (clearAllBtn_disabled (updateGlobalUI fs) = false ↔ anyRunning = false) ∧
  downloadCountBadge (updateGlobalUI fs)
    = (if bool_decide (0 < doneCount) then Some doneCount else None).
Proof.
  intros Hinv%Reachable_doneHasFile fs doneCount anyRunning.
  assert (Hcount : doneCount = length (filter (λ f, status f = done) fs))
    by (by apply readyToDownloadCount_done).
  split_and!; try done.
  - apply some_true.
  - simpl. fold anyRunning. rewrite Hcount, filter_positive.
    rewrite orb_false_iff, negb_false_iff.
    unfold anyDone. rewrite some_true. tauto.
Qed.

(** ** Re-running while compressing *)

(** X19. Re-running is held off by status.  In every world the page can
    reach in which no card's file name carries markup, no click re-runs a
    record whose status is compressing: the Apply and Reset buttons of its
    card are disabled, so is Apply to all, and the cards hold no other
    element that reaches the listener; these clicks change nothing and
    start no run.  What is read is the status of the record, not the runs
    that are in flight. *)
Theorem rerun_disabled_while_compressing (w : World) (k : nat) (f : ImageFileState) :
  Reachable w →
  templateOnly (page w) = true →
  imageFilesState w !! k = Some f →
  status f = compressing →
  (∀ sizeInput unitSelect, dispatchEvent (ClickApply k sizeInput unitSelect) w = w) ∧
  dispatchEvent (ClickReset k) w = w ∧
  (∀ sizeInput unitSelect, dispatchEvent (ClickApplyToAll sizeInput unitSelect) w = w) ∧
  (∀ call, dispatchEvent (ClickPasted call) w = w).
Proof.
  intros [Hcards Htool]%Reachable_Synced Hplain Hk Hstatus.
  assert (Hcard : cards (page w) !! k = Some (createCardElement f))
    by (by rewrite Hcards, list_lookup_fmap, Hk).
  assert (Hoff : canRerun (createCardElement f) = false).
  { unfold canRerun, createCardElement. simpl. rewrite Hstatus. done. }
  assert (Hbusy : applyToAllBtn_disabled (toolbar (page w)) = true).
  { destruct Htool as [-> _]; [intros Hnil; by rewrite Hnil in Hk|].
    apply some_true. exists f. split; [|done]. by eapply list_elem_of_lookup_2. }
  split_and!; intros; simpl.
  - by rewrite Hcard, Hoff.
  - by rewrite Hcard, Hoff.
  - by rewrite Hbusy.
  - by rewrite Hplain.
Qed.

(** ** Worked runs of the page *)

(** The check of [handleApplyToAll] has no test for finiteness: were the
    field to deliver positive infinity, the handler would take it, mark
    the done record compressing with target infinity and start a run. *)
Lemma handleApplyToAll_accepts_infinity :
  positiveFinite infinity = false ∧
  dispatchEvent (ClickApplyToAll infinity KB) doneWorld
    = handleApplyToAll infinity KB doneWorld ∧
  status <$> imageFilesState doneWorld = [done] ∧
  inFlight doneWorld = [] ∧
  status <$> imageFilesState (handleApplyToAll infinity KB doneWorld) = [compressing] ∧
  targetSize <$> imageFilesState (handleApplyToAll infinity KB doneWorld) = [infinity] ∧
  run_id <$> inFlight (handleApplyToAll infinity KB doneWorld) = [0].
Proof. by vm_compute. Qed.


Lemma handleApplyToAll_batch_witness :
  is_nan 250%float = false ∧ (250 <=? 0)%float = false ∧
  NoDup (id <$> imageFilesState mixedWorld) ∧
  status <$> imageFilesState mixedWorld = [done; error; compressing] ∧
  let w' := handleApplyToAll 250%float MB mixedWorld in
  status <$> imageFilesState w' = [compressing; error; compressing] ∧
  targetSize <$> imageFilesState w' = [250%float; 500%float; 250%float] ∧
  targetUnit <$> imageFilesState w' = [MB; KB; MB] ∧
  run_id <$> drop (length (inFlight mixedWorld)) (inFlight w') = [0; 2].
Proof.
  assert (Hnd : NoDup (id <$> imageFilesState mixedWorld)) by compute_done.
  split_and!; [done..|].
  pose proof (handleApplyToAll_batch 250%float MB mixedWorld eq_refl eq_refl Hnd) as H.
  cbv zeta in H. cbv zeta. rewrite H. by vm_compute.
Defined.

Lemma updateGlobalUI_spec_witness :
  Reachable mixedWorld ∧
  status <$> imageFilesState mixedWorld = [done; error; compressing] ∧
  readyToDownloadCount (imageFilesState mixedWorld) = 1 ∧
  length (filter (λ f, status f = done) (imageFilesState mixedWorld)) = 1 ∧
  downloadAllBtn_disabled (updateGlobalUI (imageFilesState mixedWorld)) = true.
Proof.
  assert (Hreach : Reachable mixedWorld) by (apply runEvents_Reachable; constructor).
  pose proof (updateGlobalUI_spec mixedWorld Hreach) as H. cbv zeta in H.
  destruct H as (Hcount & _ & _ & _ & _ & _).
  split_and!; [exact Hreach|by vm_compute|by vm_compute| |by vm_compute].
  rewrite <- Hcount. by vm_compute.
Defined.

(** C3. A run that fails changes another job.  The card of a.png is
    removed with its run in flight, b.png finishes, Clear all sets the id
    counter back to 0 and c.png gets the id 0 again.  When the run of
    a.png then fails, the record of c.png is the one marked [error], while
    c.png's own run is still in flight. *)
Lemma rejected_stale_run_marks_new_record :
  Reachable staleRunWorld ∧
  originalFile <$> imageFilesState staleRunWorld = [fileC] ∧
  id <$> imageFilesState staleRunWorld = [0] ∧
  status <$> imageFilesState staleRunWorld = [compressing] ∧
  run_id <$> inFlight staleRunWorld = [0; 0] ∧
  run_file <$> inFlight staleRunWorld = [fileA; fileC] ∧
  let w' := dispatchEvent (Rejected 0) staleRunWorld in
  originalFile <$> imageFilesState w' = [fileC] ∧
  status <$> imageFilesState w' = [error] ∧
  run_file <$> inFlight w' = [fileC].
Proof.
  split; [apply runEvents_Reachable; constructor|by vm_compute].
Qed.

(** A name with markup lets a click through to a handler that the buttons
    of the template hold off.  The record of [fileQ] is compressing and the
    Reset button of its card is disabled, yet a click on the thumbnail,
    which carries the class btn-reset, reaches [handleReset] and starts a
    second run for the id. *)
Lemma pasted_class_resets_compressing_record :
  let w := runEvents [FilesChosen [fileQ]] (initialWorld toolbar0) in
  templateOnly (page w) = false ∧
  status <$> imageFilesState w = [compressing] ∧
  run_id <$> inFlight w = [0] ∧
  dispatchEvent (ClickReset 0) w = w ∧
  run_id <$> inFlight (dispatchEvent (ClickPasted (Reset 0)) w) = [0; 0].
Proof. by vm_compute. Qed.

(** C6. A second run for an id with a run in flight.  After a card is
    removed with its run in flight, Clear all resets the ids, and the next
    file gets the id 0 again; the stale run resolves onto the new record
    and marks it done, its card offers Apply, and the click starts a run
    for id 0 while the record's own run is still in flight. *)
Lemma rerun_started_while_run_in_flight :
  Reachable reusedIdWorld ∧
  status <$> imageFilesState reusedIdWorld = [done] ∧
  run_id <$> inFlight reusedIdWorld = [0] ∧
  run_file <$> inFlight reusedIdWorld = [fileC] ∧
  startedRuns (ClickApply 0 300%float KB) reusedIdWorld = [0] ∧
  run_id <$> inFlight (dispatchEvent (ClickApply 0 300%float KB) reusedIdWorld)
    = [0; 0].
Proof.
  split; [apply runEvents_Reachable; constructor|by vm_compute].
Qed.

Lemma rerun_disabled_while_compressing_witness :
  let w := runEvents [FilesChosen [fileA]] (initialWorld toolbar0) in
  Reachable w ∧
  templateOnly (page w) = true ∧
  imageFilesState w !! 0 = Some (newRecord 0 fileA 0) ∧
  status (newRecord 0 fileA 0) = compressing ∧
  dispatchEvent (ClickReset 0) w = w.
Proof.
  set (w := runEvents _ _).
  assert (Hreach : Reachable w) by (apply runEvents_Reachable; constructor).
  assert (Hplain : templateOnly (page w) = true) by (by vm_compute).
  assert (Hk : imageFilesState w !! 0 = Some (newRecord 0 fileA 0)) by (by vm_compute).
  destruct (rerun_disabled_while_compressing w 0 _ Hreach Hplain Hk eq_refl)
    as (_ & H & _).
  split_and!; [exact Hreach|exact Hplain|exact Hk|reflexivity|exact H].
Defined.

(** ** Object URLs over the life of the page *)

Section ObjectUrls.
Implicit Types (w : World) (fs : list ImageFileState) (f : ImageFileState).
Implicit Types (i k : nat) (p : Partial) (u v : ObjectUrl).

(** A run that succeeds: an object URL is created in every case, none is
    revoked, and the store changes only where the id is still found. *)
Lemma resumeResolved_cases (run : Pending) (out : File) w :
  let fs' := match findIndex (run_id run) (imageFilesState w) with
             | Some k => alter (asDone out (urlCounter w)) k (imageFilesState w)
             | None => imageFilesState w
             end in
  resumeResolved run out w =
  {| imageFilesState := fs'; nextId := nextId w; page := pageOf fs';
     urlCounter := S (urlCounter w); inFlight := inFlight w;
     trace := trace w ++ [CreateObjectURL (urlCounter w); Render fs'] |}.
Proof.
  unfold resumeResolved. unfold_world. rewrite updated_alter.
  rewrite <- app_assoc. by destruct (findIndex _ _).
Qed.

Lemma revokedUrls_app (t1 t2 : list Effect) :
  revokedUrls (t1 ++ t2) = revokedUrls t1 ++ revokedUrls t2.
Proof. apply omap_app. Qed.

Lemma revokedUrls_revocations fs : revokedUrls (fs ≫= revocations) = heldUrls fs.
Proof.
  unfold heldUrls. induction fs as [|f fs IH]; [done|].
  rewrite !bind_cons, revokedUrls_app, IH. f_equal.
  unfold revocations, urlsOf. by destruct (compressedUrl f).
Qed.

Lemma heldUrls_updated i p fs :
  upd_originalUrl p = None → upd_compressedUrl p = None →
  heldUrls (updated i p fs) = heldUrls fs.
Proof.
  intros Ho Hc. unfold heldUrls. induction fs as [|f fs IH]; [done|].
  rewrite updated_cons. case_decide; rewrite !bind_cons; [|by rewrite IH].
  f_equal. unfold urlsOf. simpl. by rewrite Ho, Hc.
Qed.

Lemma heldUrls_updated_elem i p fs u :
  upd_originalUrl p = None →
  u ∈ heldUrls (updated i p fs) →
  u ∈ heldUrls fs ∨ upd_compressedUrl p = Some (Some u).
Proof.
  intros Ho. unfold heldUrls. induction fs as [|f fs IH]; [by left|].
  rewrite updated_cons. case_decide; rewrite !bind_cons, !elem_of_app.
  - intros [Hu|Hu]; [|by left; right].
    unfold urlsOf in Hu. simpl in Hu. rewrite Ho in Hu. simpl in Hu.
    apply elem_of_cons in Hu as [->|Hu]; [left; left; left|].
    destruct (upd_compressedUrl p) as [[v|]|] eqn:Hp; simpl in Hu.
    + apply list_elem_of_singleton in Hu as ->. by right.
    + by apply elem_of_nil in Hu.
    + left. left. unfold urlsOf. by right.
  - intros [Hu|Hu]; [by left; left|]. destruct (IH Hu); [left; by right|by right].
Qed.

Lemma heldUrls_filter (P : ImageFileState → Prop) `{∀ f, Decision (P f)} fs u :
  u ∈ heldUrls (filter P fs) → u ∈ heldUrls fs.
Proof.
  unfold heldUrls. rewrite !list_elem_of_bind.
  intros (f & Hu & [_ Hf]%list_elem_of_filter). eauto.
Qed.

Lemma find_heldUrls i f fs u : find i fs = Some f → u ∈ urlsOf f → u ∈ heldUrls fs.
Proof.
  intros [Hf _]%find_Some_elem Hu. unfold heldUrls.
  apply list_elem_of_bind. eauto.
Qed.

Lemma sameUrls_refl w : sameUrls w w.
Proof. done. Qed.

Lemma sameUrls_trans w1 w2 w3 : sameUrls w1 w2 → sameUrls w2 w3 → sameUrls w1 w3.
Proof. intros (?&?&?) (?&?&?). split_and!; congruence. Qed.

Lemma foldl_sameUrls {A} (h : A → World → World) (l : list A) w :
  (∀ x w0, sameUrls w0 (h x w0)) → sameUrls w (foldl (λ acc x, h x acc) w l).
Proof.
  intros Hh. revert w. induction l as [|x l IH]; intros w; simpl.
  - apply sameUrls_refl.
  - eapply sameUrls_trans; [apply Hh|apply IH].
Qed.

Lemma updateFileState_sameUrls i p w :
  upd_originalUrl p = None → upd_compressedUrl p = None →
  sameUrls w (updateFileState i p w).
Proof. intros. split_and!; [done..|]. simpl. by apply heldUrls_updated. Qed.

Lemma render_sameUrls w : sameUrls w (render w).
Proof.
  split_and!; [done| |done]. simpl. rewrite revokedUrls_app. simpl.
  apply app_nil_r.
Qed.

Lemma compressToTargetSize_sameUrls i bytes s w :
  sameUrls w (compressToTargetSize i bytes s w).
Proof.
  destruct (list_find (λ f, id f = i) (imageFilesState w)) as [[k f]|] eqn:Hfind.
  - destruct s.
    + rewrite (compressToTargetSize_quiet _ _ _ _ _ Hfind).
      split_and!; [done| |done]. simpl. rewrite revokedUrls_app. apply app_nil_r.
    + rewrite (compressToTargetSize_found _ _ _ _ _ Hfind).
      split_and!; [done|..]; simpl.
      * rewrite revokedUrls_app. apply app_nil_r.
      * transitivity (heldUrls (updated i markCompressing (imageFilesState w))).
        { unfold updated. by rewrite Hfind. }
        by apply heldUrls_updated.
  - rewrite compressToTargetSize_absent; [apply sameUrls_refl|].
    unfold find. by rewrite Hfind.
Qed.

Lemma runCompressionForId_sameUrls i w : sameUrls w (runCompressionForId i w).
Proof.
  unfold runCompressionForId. destruct (find i (imageFilesState w)).
  - apply compressToTargetSize_sameUrls.
  - apply sameUrls_refl.
Qed.

Lemma handleTargetSizeApply_sameUrls i newSize newUnit w :
  sameUrls w (handleTargetSizeApply i newSize newUnit w).
Proof.
  unfold handleTargetSizeApply. eapply sameUrls_trans.
  - by apply (updateFileState_sameUrls i (newTarget newSize newUnit)).
  - apply runCompressionForId_sameUrls.
Qed.

Lemma handleApplyToAll_sameUrls newSize newUnit w :
  sameUrls w (handleApplyToAll newSize newUnit w).
Proof.
  unfold handleApplyToAll.
  destruct (is_nan newSize || (newSize <=? 0)%float).
  { split_and!; [done| |done]. simpl. rewrite revokedUrls_app. apply app_nil_r. }
  case_bool_decide; [apply sameUrls_refl|].
  eapply sameUrls_trans; [|eapply sameUrls_trans].
  - apply (foldl_sameUrls
             (λ file, updateFileState (id file) (bulkTarget newSize newUnit))).
    intros. by apply updateFileState_sameUrls.
  - apply render_sameUrls.
  - apply (foldl_sameUrls
             (λ file, compressToTargetSize (id file)
                        (newSize * multiplier newUnit)%float true)).
    intros. apply compressToTargetSize_sameUrls.
Qed.

Lemma sameUrls_urlStep w w' : sameUrls w w' → urlStep w w'.
Proof.
  intros (Hc & Hr & Hh). unfold urlStep. rewrite Hc, Hr, Hh.
  split_and!; [done|by left..].
Qed.
End ObjectUrls.

Section LostUrls.
Implicit Types (w : World) (fs : list ImageFileState) (f : ImageFileState).
Implicit Types (i k : nat) (u v : ObjectUrl).

Lemma urlStep_sameUrls w w1 w2 : urlStep w w1 → sameUrls w1 w2 → urlStep w w2.
Proof.
  intros (Hc & Hr & Hh) (Hc' & Hr' & Hh'). unfold urlStep.
  by rewrite Hc', Hr', Hh'.
Qed.

Lemma revokedUrls_created (us : list ObjectUrl) :
  revokedUrls (CreateObjectURL <$> us) = [].
Proof. by induction us. Qed.

Lemma heldUrls_newRecords (files : list File) (a b : nat) u :
  u ∈ heldUrls (imap (λ n file, newRecord (a + n) file (b + n)) files) → b ≤ u.
Proof.
  unfold heldUrls. intros (f & Hu & Hf)%list_elem_of_bind.
  apply list_elem_of_lookup in Hf as [n Hn].
  rewrite list_lookup_imap in Hn. destruct (files !! n); simplify_eq/=.
  unfold urlsOf in Hu. simpl in Hu. apply list_elem_of_singleton in Hu. lia.
Qed.

Lemma processFiles_urlStep files w : urlStep w (processFiles files w).
Proof.
  unfold processFiles. rewrite newFileStates_spec.
  eapply urlStep_sameUrls.
  2:{ apply (foldl_sameUrls (λ file, runCompressionForId (id file))).
      intros. apply runCompressionForId_sameUrls. }
  split_and!; simpl.
  - lia.
  - intros u. rewrite !revokedUrls_app, revokedUrls_created, !app_nil_r. by left.
  - intros u. unfold heldUrls. rewrite bind_app, elem_of_app.
    intros [Hu|Hu]; [by left|right]. by eapply heldUrls_newRecords.
Qed.

Lemma handleRemoveImage_urlStep i w : urlStep w (handleRemoveImage i w).
Proof.
  unfold handleRemoveImage.
  destruct (find i (imageFilesState w)) as [file|] eqn:Hfind.
  - assert (Hw1 : revokeBoth file w =
      {| imageFilesState := imageFilesState w; nextId := nextId w; page := page w;
         urlCounter := urlCounter w; inFlight := inFlight w;
         trace := trace w ++ revocations file |}).
    { unfold revokeBoth, revocations. destruct (compressedUrl file); by world_eq. }
    rewrite Hw1. split_and!; simpl; [done|..].
    + intros u. rewrite !revokedUrls_app, app_nil_r, elem_of_app.
      intros [Hu|Hu]; [by left|right].
      eapply find_heldUrls; [done|].
      unfold revocations, urlsOf in *. by destruct (compressedUrl file).
    + intros u Hu. left. by eapply heldUrls_filter.
  - split_and!; simpl; [done|..].
    + intros u. rewrite revokedUrls_app, app_nil_r. by left.
    + intros u Hu. left. by eapply heldUrls_filter.
Qed.

Lemma handleReset_urlStep i w : urlStep w (handleReset i w).
Proof.
  destruct (list_find (λ f, id f = i) (imageFilesState w)) as [[k f]|] eqn:Hfind.
  2:{ rewrite handleReset_absent; [by apply sameUrls_urlStep|].
      unfold find. by rewrite Hfind. }
  assert (Hf : find i (imageFilesState w) = Some f)
    by (unfold find; by rewrite Hfind).
  split_and!.
  - by rewrite (handleReset_found _ _ _ _ Hfind).
  - rewrite (handleReset_found _ _ _ _ Hfind). simpl. intros u.
    rewrite !revokedUrls_app, app_nil_r, elem_of_app.
    intros [Hu|Hu]; [by left|right].
    eapply find_heldUrls; [done|]. unfold urlsOf.
    destruct (compressedUrl f); simpl in Hu; [by right|by apply elem_of_nil in Hu].
  - rewrite handleReset_files. intros u.
    rewrite heldUrls_updated by done.
    intros [Hu|[=]]%heldUrls_updated_elem; [by left|done].
Qed.

Lemma handleClearAll_urlStep w : urlStep w (handleClearAll w).
Proof.
  unfold handleClearAll. rewrite foldl_revokeBoth. split_and!; simpl; [done|..].
  - intros u.
    rewrite !revokedUrls_app, revokedUrls_revocations, app_nil_r, elem_of_app.
    tauto.
  - intros u Hu. by apply elem_of_nil in Hu.
Qed.

Lemma resumeResolved_urlStep run out w : urlStep w (resumeResolved run out w).
Proof.
  unfold resumeResolved. split_and!; simpl.
  - lia.
  - intros u. rewrite !revokedUrls_app, !app_nil_r. by left.
  - intros u [Hu|[= <-]]%heldUrls_updated_elem; [by left|by right|done].
Qed.

Lemma resumeRejected_sameUrls run w : sameUrls w (resumeRejected run w).
Proof.
  unfold resumeRejected. split_and!; simpl; [done|..].
  - by rewrite !revokedUrls_app, !app_nil_r.
  - by apply heldUrls_updated.
Qed.

Lemma dispatchEvent_urlStep ev w : urlStep w (dispatchEvent ev w).
Proof.
  assert (Hrefl : urlStep w w) by (apply sameUrls_urlStep, sameUrls_refl).
  destruct ev as [files|k|k s un|k|s un| |k c|k|call]; simpl.
  - apply processFiles_urlStep.
  - destruct (cards (page w) !! k); [|done]. apply handleRemoveImage_urlStep.
  - destruct (cards (page w) !! k) as [card|]; [|done].
    destruct (canRerun card); [|done].
    apply sameUrls_urlStep, handleTargetSizeApply_sameUrls.
  - destruct (cards (page w) !! k) as [card|]; [|done].
    destruct (canRerun card); [|done]. apply handleReset_urlStep.
  - destruct (applyToAllBtn_disabled _); [done|].
    apply sameUrls_urlStep, handleApplyToAll_sameUrls.
  - destruct (clearAllBtn_disabled _); [done|]. apply handleClearAll_urlStep.
  - destruct (inFlight w !! k) as [run|]; [|done].
    apply (resumeResolved_urlStep run c (setInFlight (delete k (inFlight w)) w)).
  - destruct (inFlight w !! k) as [run|]; [|done].
    apply sameUrls_urlStep.
    apply (resumeRejected_sameUrls run (setInFlight (delete k (inFlight w)) w)).
  - destruct (templateOnly _); [done|].
    destruct call as [i|i s un|i]; unfold runCall.
    + apply handleRemoveImage_urlStep.
    + apply sameUrls_urlStep, handleTargetSizeApply_sameUrls.
    + apply handleReset_urlStep.
Qed.

Lemma Lost_step u w w' : Lost u w → urlStep w w' → Lost u w'.
Proof.
  intros (Hlt & Hheld & Hrev) (Hc & Hr & Hh). split_and!.
  - lia.
  - intros [?|?]%Hh; [done|lia].
  - intros [?|?]%Hr; done.
Qed.

(** An object URL that no record holds any more is never revoked. *)
Lemma Lost_forever u evs w : Lost u w → Lost u (runEvents evs w).
Proof.
  revert w. induction evs as [|ev evs IH]; intros w Hw; [done|].
  simpl. apply IH. eapply Lost_step; [done|apply dispatchEvent_urlStep].
Qed.
End LostUrls.

(** ** Object URLs that are never released *)

(** C1. One file is chosen and compressed, Apply re-runs it with a new
    target and the second run succeeds.  Three object URLs were created (0
    for the original, 1 and 2 for the two results); the record now holds 0
    and 2, nothing was revoked when 2 replaced 1, and whatever happens
    next, 1 is never revoked: after Clear all the store is empty, 0 and 2
    are revoked and 1 is still live. *)
Theorem apply_rerun_leaks_compressed_url :
  let w := runEvents [FilesChosen [fileA]; Resolved 0 outA;
                      ClickApply 0 300%float KB; Resolved 0 outB]
             (initialWorld toolbar0) in
  heldUrls (imageFilesState w) = [0; 2] ∧
  createdUrls (trace w) = [0; 1; 2] ∧
  revokedUrls (trace w) = [] ∧
  (∀ evs, 1 ∉ revokedUrls (trace (runEvents evs w))) ∧
  let w' := dispatchEvent ClickClearAll w in
  imageFilesState w' = [] ∧ inFlight w' = [] ∧
  revokedUrls (trace w') = [0; 2] ∧ liveUrls (trace w') = [1].
Proof.
  set (w := runEvents _ _).
  assert (Hlost : Lost 1 w) by (split_and!; compute_done).
  split_and!; try (by vm_compute).
  intros evs. by destruct (Lost_forever 1 evs w Hlost) as (_ & _ & ?).
Qed.

(** C4. One file is chosen and its card removed while the run is in
    flight; then the run resolves.  The store stays empty and nothing is
    in flight, yet the resumed call has created the object URL 1 for the
    result, which no record holds and which is never revoked, whatever
    happens next. *)
Theorem resolved_after_remove_leaks_url :
  let w1 := runEvents [FilesChosen [fileA]; ClickRemove 0] (initialWorld toolbar0) in
  let w2 := dispatchEvent (Resolved 0 outA) w1 in
  imageFilesState w1 = [] ∧ run_id <$> inFlight w1 = [0] ∧ liveUrls (trace w1) = [] ∧
  imageFilesState w2 = [] ∧ inFlight w2 = [] ∧ liveUrls (trace w2) = [1] ∧
  (∀ evs, 1 ∉ revokedUrls (trace (runEvents evs w2))).
Proof.
  set (w1 := runEvents _ _). set (w2 := dispatchEvent (Resolved 0 outA) w1).
  assert (Hlost : Lost 1 w2) by (split_and!; compute_done).
  split_and!; try (by vm_compute).
  intros evs. by destruct (Lost_forever 1 evs w2 Hlost) as (_ & _ & ?).
Qed.

(** * Further properties of the handlers *)

(** ** Handlers that act on one id *)

Lemma filter_absent (i : nat) (fs : list ImageFileState) :
  find i fs = None → filter (λ f, id f ≠ i) fs = fs.
Proof.
  induction fs as [|f fs IH]; [done|].
  rewrite find_cons, filter_cons. case_decide as Hi; [done|].
  intros Hfind. rewrite decide_True by done. by rewrite IH.
Qed.

(** X1. [handleRemoveImage] on a stored id revokes the object URLs of the
    record [find] returns (the compressed one when there is one), drops
    every record with that id, keeping the others in order, and renders;
    the runs in flight are left as they are, so the run of the removed
    record is not cancelled.  On an id that is not stored it only renders
    again. *)
Theorem handleRemoveImage_spec (i : nat) (w : World) :
  match find i (imageFilesState w) with
  | Some file =>
      let fs' := filter (λ f, id f ≠ i) (imageFilesState w) in
      handleRemoveImage i w =
      {| imageFilesState := fs'; nextId := nextId w; page := pageOf fs';
         urlCounter := urlCounter w; inFlight := inFlight w;
         trace := trace w ++ revocations file ++ [Render fs'] |}
  | None =>
      handleRemoveImage i w =
      {| imageFilesState := imageFilesState w; nextId := nextId w;
         page := pageOf (imageFilesState w);
         urlCounter := urlCounter w; inFlight := inFlight w;
         trace := trace w ++ [Render (imageFilesState w)] |}
  end.
Proof.
  unfold handleRemoveImage.
  destruct (find i (imageFilesState w)) as [file|] eqn:Hfind.
  - unfold revokeBoth, revocations. destruct (compressedUrl file); by world_eq.
  - unfold_world. by rewrite filter_absent.
Qed.

(** X2. [handleTargetSizeApply] on a stored id checks nothing: whatever
    number the size field parsed to (NaN, zero and negative values
    included) becomes the record's target, the record is marked
    compressing and keeps its compressed file and object URL, and one run
    is started with the budget [newSize * multiplier].  On an id that is
    not stored nothing changes. *)
Theorem handleTargetSizeApply_spec (i : nat) (newSize : float) (newUnit : SizeUnit)
    (w : World) :
  match list_find (λ f, id f = i) (imageFilesState w) with
  | None => handleTargetSizeApply i newSize newUnit w = w
  | Some (k, f) =>
      let fs' := <[k := asRetargeted newSize newUnit f]> (imageFilesState w) in
      let run := {| run_id := i; run_file := originalFile f;
                    run_options :=
                      compressionOptions (newSize * multiplier newUnit)%float |} in
      handleTargetSizeApply i newSize newUnit w =
      {| imageFilesState := fs'; nextId := nextId w; page := pageOf fs';
         urlCounter := urlCounter w; inFlight := inFlight w ++ [run];
         trace := trace w ++ [Render fs'; ImageCompression run] |}
  end.
Proof.
  destruct (list_find _ _) as [[k f]|] eqn:Hfind.
  - by rewrite (handleTargetSizeApply_found _ _ _ _ _ _ Hfind).
  - apply handleTargetSizeApply_absent. unfold find. by rewrite Hfind.
Qed.

(** X3. A run that resolves: an object URL is created for the result in
    every case and nothing is revoked; the record the run's id points at
    (whichever file it holds by now) gets status done, the result and the
    new URL, and keeps its target; the other records are untouched; when
    the id is no longer stored the store stays as it is. *)
Theorem resumeResolved_spec (run : Pending) (out : File) (w : World) :
  let fs' := match findIndex (run_id run) (imageFilesState w) with
             | Some k => alter (asDone out (urlCounter w)) k (imageFilesState w)
             | None => imageFilesState w
             end in
  resumeResolved run out w =
  {| imageFilesState := fs'; nextId := nextId w; page := pageOf fs';
     urlCounter := S (urlCounter w); inFlight := inFlight w;
     trace := trace w ++ [CreateObjectURL (urlCounter w); Render fs'] |}.
Proof.
  unfold resumeResolved. unfold_world. rewrite updated_alter.
  rewrite <- app_assoc. by destruct (findIndex _ _).
Qed.

(** X4. Handlers that act on the id [i] (Apply, Reset, and the two ways a
    run of [i] settles) never change what the store holds for another id. *)
Theorem other_ids_untouched (i j : nat) (w : World) :
  i ≠ j →
  (∀ newSize newUnit,
     find j (imageFilesState (handleTargetSizeApply i newSize newUnit w))
     = find j (imageFilesState w)) ∧
  find j (imageFilesState (handleReset i w)) = find j (imageFilesState w) ∧
  (∀ run out, run_id run = i →
     find j (imageFilesState (resumeResolved run out w)) = find j (imageFilesState w)) ∧
  (∀ run, run_id run = i →
     find j (imageFilesState (resumeRejected run w)) = find j (imageFilesState w)).
Proof.
  intros Hij. split_and!.
  - intros. rewrite handleTargetSizeApply_files. by rewrite !find_updated_ne.
  - rewrite handleReset_files. by rewrite !find_updated_ne.
  - intros run out <-. unfold resumeResolved. simpl. by rewrite find_updated_ne.
  - intros run <-. unfold resumeRejected. simpl. by rewrite find_updated_ne.
Qed.

Lemma other_ids_untouched_witness :
  0 ≠ 1 ∧
  find 1 (imageFilesState (handleReset 0 mixedWorld))
  = find 1 (imageFilesState mixedWorld).
Proof.
  assert (H : 0 ≠ 1) by lia.
  split; [exact H|]. by destruct (other_ids_untouched 0 1 mixedWorld H) as (_ & ? & _).
Defined.

(** X5. For an id that is not stored, every handler that takes an id
    leaves the world as it is, and a run of that id that settles leaves
    the store as it is. *)
Theorem absent_id_changes_nothing (i : nat) (w : World) :
  find i (imageFilesState w) = None →
  (∀ updates, updateFileState i updates w = w) ∧
  (∀ newSize newUnit, handleTargetSizeApply i newSize newUnit w = w) ∧
  handleReset i w = w ∧
  runCompressionForId i w = w ∧
  (∀ bytes quiet, compressToTargetSize i bytes quiet w = w) ∧
  (∀ run out, run_id run = i →
     imageFilesState (resumeResolved run out w) = imageFilesState w) ∧
  (∀ run, run_id run = i →
     imageFilesState (resumeRejected run w) = imageFilesState w).
Proof.
  intros Hfind. split_and!; intros.
  - by apply updateFileState_absent.
  - by apply handleTargetSizeApply_absent.
  - by apply handleReset_absent.
  - by apply runCompressionForId_absent.
  - by apply compressToTargetSize_absent.
  - subst i. unfold resumeResolved. simpl. by apply updated_absent.
  - subst i. unfold resumeRejected. simpl. by apply updated_absent.
Qed.

Lemma absent_id_changes_nothing_witness :
  find 7 (imageFilesState mixedWorld) = None ∧
  handleReset 7 mixedWorld = mixedWorld.
Proof.
  assert (H : find 7 (imageFilesState mixedWorld) = None) by (by vm_compute).
  split; [exact H|]. by destruct (absent_id_changes_nothing 7 mixedWorld H) as (_ & _ & ? & _).
Defined.

(** ** Choosing files *)

Section ChoosingFiles.
Implicit Types (w : World) (fs all l : list ImageFileState) (f : ImageFileState).

Lemma list_find_NoDup (k : nat) f fs :
  NoDup (id <$> fs) → fs !! k = Some f →
  list_find (λ g, id g = id f) fs = Some (k, f).
Proof.
  intros Hnd Hk. apply list_find_Some. split_and!; [done..|].
  intros j g Hj Hlt Hid.
  assert (j = k); [|lia].
  eapply NoDup_lookup; [done| |].
  - rewrite list_lookup_fmap, Hj. done.
  - rewrite list_lookup_fmap, Hk. simpl. by rewrite Hid.
Qed.

Lemma merge_markCompressing f :
  status f = compressing → merge f markCompressing = f.
Proof. destruct f. simpl. by intros ->. Qed.

Lemma foldl_run_compressing all l w :
  NoDup (id <$> all) → imageFilesState w = all → page w = pageOf all →
  (∀ f, f ∈ l → f ∈ all ∧ status f = compressing
                ∧ targetSize f = 500%float ∧ targetUnit f = KB) →
  foldl (λ acc file, runCompressionForId (id file) acc) w l =
  {| imageFilesState := all; nextId := nextId w; page := pageOf all;
     urlCounter := urlCounter w; inFlight := inFlight w ++ (defaultRun <$> l);
     trace := trace w ++ (l ≫= λ f, [Render all; ImageCompression (defaultRun f)]) |}.
Proof.
  intros Hnd. revert w. induction l as [|f l IH]; intros w Hfs Hpage Hl.
  { simpl. rewrite !app_nil_r. destruct w. simpl in *. by subst. }
  destruct (Hl f) as (Hin & Hst & Hsize & Hunit); [left|].
  apply list_elem_of_lookup in Hin as [k Hk].
  assert (Hfind : list_find (λ g, id g = id f) (imageFilesState w) = Some (k, f))
    by (rewrite Hfs; by apply list_find_NoDup).
  simpl. rewrite (runCompressionForId_found _ _ _ _ Hfind).
  rewrite (compressToTargetSize_found _ _ _ _ _ Hfind).
  rewrite merge_markCompressing by done.
  rewrite Hfs, list_insert_id by done.
  rewrite IH; [|done..|intros g Hg; apply Hl; by right].
  simpl. rewrite Hsize, Hunit. rewrite <- !app_assoc. done.
Qed.

Lemma UniqueIds_extend (files : list File) w :
  UniqueIds w →
  NoDup (id <$> (imageFilesState w ++
    imap (λ n file, newRecord (nextId w + n) file (urlCounter w + n)) files)).
Proof.
  intros [Hnd Hlt]. rewrite fmap_app, newRecord_ids.
  apply NoDup_app. split_and!; [done| |apply NoDup_seq].
  intros j Hj Hseq. rewrite Forall_forall in Hlt.
  apply Hlt in Hj. apply elem_of_seq in Hseq. lia.
Qed.
End ChoosingFiles.

(** X6. In a store with one record per id, all below the counter,
    [processFiles] appends one record per file, in order, with the next
    ids and fresh object URLs, status compressing and the target 500 KB;
    it leaves the records already stored as they are; it renders once on
    the whole store and then, file by file, renders again and starts one
    run with the budget of 500 * 1024 bytes.  With no file it only
    renders. *)
Theorem processFiles_spec (files : list File) (w : World) :
  UniqueIds w →
  let n := length files in
  let new := imap (λ j file, newRecord (nextId w + j) file (urlCounter w + j)) files in
  let all := imageFilesState w ++ new in
  processFiles files w =
  {| imageFilesState := all; nextId := nextId w + n; page := pageOf all;
     urlCounter := urlCounter w + n; inFlight := inFlight w ++ (defaultRun <$> new);
     trace := trace w ++ (CreateObjectURL <$> seq (urlCounter w) n)
              ++ Render all
                 :: (new ≫= λ f, [Render all; ImageCompression (defaultRun f)]) |}.
Proof.
  intros Huniq n new all. unfold processFiles. rewrite newFileStates_spec.
  rewrite (foldl_run_compressing all).
  - simpl. rewrite <- !app_assoc. done.
  - by apply UniqueIds_extend.
  - done.
  - done.
  - intros f Hf. split; [apply elem_of_app; by right|].
    apply list_elem_of_lookup in Hf as [j Hj]. subst new.
    rewrite list_lookup_imap in Hj. by destruct (files !! j); simplify_eq/=.
Qed.

Lemma processFiles_spec_witness :
  UniqueIds doneWorld ∧
  status <$> imageFilesState (processFiles [fileB; fileC] doneWorld)
    = [done; compressing; compressing] ∧
  id <$> imageFilesState (processFiles [fileB; fileC] doneWorld) = [0; 1; 2] ∧
  run_id <$> inFlight (processFiles [fileB; fileC] doneWorld) = [1; 2].
Proof.
  assert (H : UniqueIds doneWorld) by (split; compute_done).
  pose proof (processFiles_spec [fileB; fileC] doneWorld H) as Heq.
  cbv zeta in Heq. rewrite Heq. split; [exact H|]. by vm_compute.
Defined.

(** ** What every event keeps: ids, results of done records *)

Section EventsKeep.
Implicit Types (w : World) (fs : list ImageFileState) (f : ImageFileState).

Lemma dispatchEvent_UniqueIds ev w : UniqueIds w → UniqueIds (dispatchEvent ev w).
Proof.
  intros [Hnd Hlt]. unfold UniqueIds.
  destruct (dispatchEvent_ids ev w)
    as [[-> ->]|[(n & -> & ->)|[(i & -> & ->)|[-> ->]]]].
  - done.
  - split.
    + apply NoDup_app. split_and!; [done| |apply NoDup_seq].
      intros j Hj Hseq. rewrite Forall_forall in Hlt.
      apply Hlt in Hj. apply elem_of_seq in Hseq. lia.
    + apply Forall_app. split.
      * eapply Forall_impl; [done|]. simpl. lia.
      * apply Forall_forall. intros j Hj. apply elem_of_seq in Hj. lia.
  - split.
    + by apply NoDup_filter.
    + apply Forall_forall. intros j [_ Hj]%list_elem_of_filter.
      rewrite Forall_forall in Hlt. by apply Hlt.
  - split; [apply NoDup_nil_2|apply Forall_nil_2].
Qed.

Lemma dispatchEvent_doneHasBoth ev w :
  Forall doneHasBoth (imageFilesState w) →
  Forall doneHasBoth (imageFilesState (dispatchEvent ev w)).
Proof.
  intros Hinv.
  destruct ev as [files|k|k s un|k|s un| |k c|k|call]; simpl.
  - rewrite processFiles_files. simpl.
    apply foldl_updated_Forall; [by intros f _ [=]|].
    apply Forall_app. split; [done|].
    apply Forall_lookup. intros n f Hn.
    rewrite list_lookup_imap in Hn.
    destruct (files !! n); simplify_eq/=. by intros [=].
  - destruct (cards (page w) !! k) as [card|]; [|done].
    rewrite handleRemoveImage_files.
    apply Forall_forall. intros f [_ Hf]%list_elem_of_filter.
    rewrite Forall_forall in Hinv. by apply Hinv.
  - destruct (cards (page w) !! k) as [card|]; [|done].
    destruct (canRerun card); [|done].
    rewrite handleTargetSizeApply_files.
    apply updated_Forall; [by intros f _ [=]|].
    by apply updated_Forall.
  - destruct (cards (page w) !! k) as [card|]; [|done].
    destruct (canRerun card); [|done].
    rewrite handleReset_files, updated_updated by done.
    destruct (findIndex _ _); [|done].
    apply Forall_alter; [done|]. by intros f _ _ [=].
  - destruct (applyToAllBtn_disabled _); [done|].
    destruct (handleApplyToAll_files s un w) as [l ->].
    apply foldl_updated_Forall; [by intros f _ [=]|done].
  - destruct (clearAllBtn_disabled _); [done|]. simpl. apply Forall_nil_2.
  - destruct (inFlight w !! k); [|done].
    unfold resumeResolved. simpl.
    apply updated_Forall; [|done]. intros f _ _. split; by eexists.
  - destruct (inFlight w !! k); [|done].
    unfold resumeRejected. simpl.
    apply updated_Forall; [by intros f _ [=]|done].
  - destruct (templateOnly _); [done|].
    destruct call as [i|i s un|i]; unfold runCall.
    + rewrite handleRemoveImage_files.
      apply Forall_forall. intros f [_ Hf]%list_elem_of_filter.
      rewrite Forall_forall in Hinv. by apply Hinv.
    + rewrite handleTargetSizeApply_files.
      apply updated_Forall; [by intros f _ [=]|].
      by apply updated_Forall.
    + rewrite handleReset_files, updated_updated by done.
      destruct (findIndex _ _); [|done].
      apply Forall_alter; [done|]. by intros f _ _ [=].
Qed.
End EventsKeep.

(** ** What every event keeps: object URLs *)

Section UrlsStaySound.
Implicit Types (w : World) (fs : list ImageFileState) (f g : ImageFileState).
Implicit Types (i k : nat) (p : Partial) (u v : ObjectUrl).

Lemma heldUrls_cons f fs : heldUrls (f :: fs) = urlsOf f ++ heldUrls fs.
Proof. done. Qed.

Lemma heldUrls_filter_NoDup (P : ImageFileState → Prop) `{∀ f, Decision (P f)} fs :
  NoDup (heldUrls fs) → NoDup (heldUrls (filter P fs)).
Proof.
  induction fs as [|f fs IH]; [done|].
  rewrite heldUrls_cons, NoDup_app. intros (Hf & Hdis & Hfs).
  rewrite filter_cons. case_decide; [|by apply IH].
  rewrite heldUrls_cons. apply NoDup_app. split_and!; [done| |by apply IH].
  intros u Hu Hin. apply (Hdis u Hu). by eapply heldUrls_filter.
Qed.

Lemma remove_urls i f fs :
  NoDup (heldUrls fs) → find i fs = Some f →
  NoDup (urlsOf f) ∧
  ∀ u, u ∈ heldUrls (filter (λ g, id g ≠ i) fs) → u ∉ urlsOf f.
Proof.
  induction fs as [|g fs IH]; [done|].
  rewrite heldUrls_cons, NoDup_app, find_cons. intros (Hg & Hdis & Hfs).
  rewrite filter_cons. case_decide as Hi.
  - intros [= <-]. split; [done|].
    rewrite decide_False by (intros Hne; by apply Hne).
    intros u Hu Hin. apply (Hdis u Hin). by eapply heldUrls_filter.
  - intros Hfind. destruct (IH Hfs Hfind) as [Hnd Hout]. split; [done|].
    rewrite decide_True by done. rewrite heldUrls_cons.
    intros u [Hu|Hu]%elem_of_app; [|by apply Hout].
    intros Hin. apply (Hdis u Hu). by eapply find_heldUrls.
Qed.

Lemma urlsOf_merge f p :
  upd_originalUrl p = None →
  urlsOf (merge f p) =
  originalUrl f ::
    match upd_compressedUrl p with
    | Some (Some v) => [v]
    | Some None => []
    | None => match compressedUrl f with Some v => [v] | None => [] end
    end.
Proof.
  intros Ho. unfold urlsOf. simpl. rewrite Ho. simpl.
  by destruct (upd_compressedUrl p) as [[v|]|].
Qed.

Lemma heldUrls_updated_NoDup i p fs :
  upd_originalUrl p = None →
  NoDup (heldUrls fs) →
  (∀ v, upd_compressedUrl p = Some (Some v) → v ∉ heldUrls fs) →
  NoDup (heldUrls (updated i p fs)).
Proof.
  intros Ho. induction fs as [|g fs IH]; [done|].
  rewrite heldUrls_cons, NoDup_app. intros (Hg & Hdis & Hfs) Hfresh.
  assert (Horig : originalUrl g ∈ urlsOf g) by (unfold urlsOf; left).
  rewrite updated_cons. case_decide as Hi; rewrite heldUrls_cons.
  - apply NoDup_app. rewrite urlsOf_merge by done. split_and!; [| |done].
    + destruct (upd_compressedUrl p) as [[v|]|] eqn:Hp.
      * apply NoDup_cons. split; [|apply NoDup_singleton].
        intros Heq%list_elem_of_singleton.
        apply (Hfresh v eq_refl). apply elem_of_app. left. by rewrite <- Heq.
      * apply NoDup_singleton.
      * done.
    + intros u Hu.
      destruct (upd_compressedUrl p) as [[v|]|] eqn:Hp.
      * apply elem_of_cons in Hu as [Hu|Hu%list_elem_of_singleton].
        { subst u. by apply Hdis. }
        subst u. intros Hin. apply (Hfresh v eq_refl).
        apply elem_of_app. by right.
      * apply list_elem_of_singleton in Hu. subst u. by apply Hdis.
      * by apply Hdis.
  - apply NoDup_app. split_and!; [done| |].
    + intros u Hu [Hin|Hp]%heldUrls_updated_elem; [by apply (Hdis u)| |done].
      apply (Hfresh _ Hp). apply elem_of_app. by left.
    + apply IH; [done|]. intros v Hp Hin. apply (Hfresh _ Hp).
      apply elem_of_app. by right.
Qed.

Lemma reset_url_gone i f c0 p fs :
  NoDup (heldUrls fs) → find i fs = Some f → compressedUrl f = Some c0 →
  upd_originalUrl p = None → upd_compressedUrl p = Some None →
  c0 ∉ heldUrls (updated i p fs).
Proof.
  intros Hnd Hfind Hc Ho Hp. revert Hnd Hfind.
  induction fs as [|g fs IH]; [done|].
  rewrite heldUrls_cons, NoDup_app, find_cons. intros (Hg & Hdis & Hfs).
  rewrite updated_cons. case_decide as Hi; rewrite heldUrls_cons.
  - intros [= ->]. rewrite urlsOf_merge, Hp by done.
    unfold urlsOf in Hg, Hdis. rewrite Hc in Hg, Hdis.
    apply NoDup_cons in Hg as [Hne _].
    intros [->%list_elem_of_singleton|Hin]%elem_of_app.
    + apply Hne. by left.
    + apply (Hdis c0); [right; left|done].
  - intros Hfind [Hin|Hin]%elem_of_app.
    + apply (Hdis c0 Hin). eapply find_heldUrls; [done|].
      unfold urlsOf. rewrite Hc. right. left.
    + by apply IH.
Qed.

Lemma heldUrls_newRecords_seq (files : list File) (a b : nat) :
  heldUrls (imap (λ n file, newRecord (a + n) file (b + n)) files)
  = seq b (length files).
Proof.
  revert a b. induction files as [|file files IH]; intros a b; [done|].
  rewrite imap_cons, heldUrls_cons. simpl. rewrite Nat.add_0_r. f_equal.
  rewrite <- (IH (S a) (S b)). f_equal. apply imap_ext. intros n x _. simpl.
  by rewrite !Nat.add_succ_r.
Qed.

(** The shape of a step that keeps the object URLs sound: it revokes URLs
    the store held (or ones it has just created), and what the store holds
    afterwards it held before or was just created, and was not revoked. *)
Lemma UrlsSound_step w w' (rs : list ObjectUrl) :
  UrlsSound w →
  urlCounter w ≤ urlCounter w' →
  revokedUrls (trace w') = revokedUrls (trace w) ++ rs →
  NoDup rs →
  (∀ u, u ∈ rs → (u ∈ heldUrls (imageFilesState w) ∨ urlCounter w ≤ u)
                 ∧ u < urlCounter w') →
  NoDup (heldUrls (imageFilesState w')) →
  (∀ u, u ∈ heldUrls (imageFilesState w') →
        (u ∈ heldUrls (imageFilesState w) ∨ urlCounter w ≤ u)
        ∧ u < urlCounter w' ∧ u ∉ rs) →
  UrlsSound w'.
Proof.
  intros (Hheld & Hrev & Hhlt & Hrlt & Hsep) Hle Htrace Hrs Hrsin Hheld' Hin'.
  unfold UrlsSound. rewrite Htrace. split_and!.
  - done.
  - apply NoDup_app. split_and!; [done| |done].
    intros u Hu Hur. destruct (Hrsin u Hur) as [[Hh|Hfresh] _].
    + by apply (Hsep u).
    + apply Hrlt in Hu. lia.
  - intros u Hu. by apply Hin'.
  - intros u [Hu|Hu]%elem_of_app; [apply Hrlt in Hu; lia|by apply Hrsin].
  - intros u Hu [Hr|Hr]%elem_of_app.
    + destruct (Hin' u Hu) as ([Hh|Hfresh] & _ & _).
      * by apply (Hsep u).
      * apply Hrlt in Hr. lia.
    + by destruct (Hin' u Hu) as (_ & _ & ?).
Qed.

Lemma UrlsSound_sameUrls w w' : UrlsSound w → sameUrls w w' → UrlsSound w'.
Proof.
  intros Hw (Hc & Hr & Hh). unfold UrlsSound. by rewrite Hc, Hr, Hh.
Qed.
End UrlsStaySound.

Section UrlsPerEvent.
Implicit Types (w : World) (fs : list ImageFileState) (f g : ImageFileState).
Implicit Types (i k : nat) (u v : ObjectUrl).

Lemma revokeBoth_trace f w :
  revokeBoth f w =
  {| imageFilesState := imageFilesState w; nextId := nextId w; page := page w;
     urlCounter := urlCounter w; inFlight := inFlight w;
     trace := trace w ++ revocations f |}.
Proof. unfold revokeBoth, revocations. destruct (compressedUrl f); by world_eq. Qed.

Lemma revokedUrls_revocations_one f : revokedUrls (revocations f) = urlsOf f.
Proof. unfold revocations, urlsOf. by destruct (compressedUrl f). Qed.

Lemma processFiles_urls (files : list File) w :
  urlCounter (processFiles files w) = urlCounter w + length files ∧
  revokedUrls (trace (processFiles files w)) = revokedUrls (trace w) ∧
  heldUrls (imageFilesState (processFiles files w))
  = heldUrls (imageFilesState w) ++ seq (urlCounter w) (length files).
Proof.
  unfold processFiles. rewrite newFileStates_spec.
  match goal with |- context [foldl _ ?w2 ?l] =>
    destruct (foldl_sameUrls (λ file, runCompressionForId (id file)) l w2)
      as (Hc & Hr & Hh); [intros; apply runCompressionForId_sameUrls|]
  end.
  rewrite Hc, Hr, Hh. simpl. split_and!; [done|..].
  - by rewrite !revokedUrls_app, revokedUrls_created, !app_nil_r.
  - unfold heldUrls. rewrite bind_app. f_equal. apply heldUrls_newRecords_seq.
Qed.

Lemma processFiles_UrlsSound files w :
  UrlsSound w → UrlsSound (processFiles files w).
Proof.
  intros Hw. pose proof Hw as (Hheld & _ & Hhlt & _ & _).
  destruct (processFiles_urls files w) as (Hc & Hr & Hh).
  apply (UrlsSound_step w _ []); rewrite ?Hc, ?Hr, ?Hh.
  - done.
  - lia.
  - by rewrite app_nil_r.
  - apply NoDup_nil_2.
  - intros u Hu. by apply elem_of_nil in Hu.
  - apply NoDup_app. split_and!; [done| |apply NoDup_seq].
    intros u Hu Hseq. apply Hhlt in Hu. apply elem_of_seq in Hseq. lia.
  - intros u [Hu|Hu]%elem_of_app.
    + split_and!; [by left|apply Hhlt in Hu; lia|apply not_elem_of_nil].
    + apply elem_of_seq in Hu. split_and!; [right; lia|lia|apply not_elem_of_nil].
Qed.

Lemma handleRemoveImage_UrlsSound i w :
  UrlsSound w → UrlsSound (handleRemoveImage i w).
Proof.
  intros Hw. pose proof Hw as (Hheld & _ & Hhlt & _ & _).
  unfold handleRemoveImage.
  destruct (find i (imageFilesState w)) as [file|] eqn:Hfind.
  - destruct (remove_urls i file _ Hheld Hfind) as [Hnd Hout].
    rewrite revokeBoth_trace.
    apply (UrlsSound_step w _ (urlsOf file)); simpl.
    + done.
    + done.
    + by rewrite !revokedUrls_app, revokedUrls_revocations_one, app_nil_r.
    + done.
    + intros u Hu. split; [left; by eapply find_heldUrls|].
      apply Hhlt. by eapply find_heldUrls.
    + by apply heldUrls_filter_NoDup.
    + intros u Hu. split_and!; [left; by eapply heldUrls_filter| |by apply Hout].
      apply Hhlt. by eapply heldUrls_filter.
  - eapply UrlsSound_sameUrls; [done|]. split_and!; simpl; [done|..].
    + by rewrite revokedUrls_app, app_nil_r.
    + by rewrite filter_absent.
Qed.

Lemma handleReset_UrlsSound i w : UrlsSound w → UrlsSound (handleReset i w).
Proof.
  intros Hw. pose proof Hw as (Hheld & _ & Hhlt & _ & _).
  destruct (list_find (λ f, id f = i) (imageFilesState w)) as [[k f]|] eqn:Hfind.
  2:{ rewrite handleReset_absent; [done|]. unfold find. by rewrite Hfind. }
  assert (Hf : find i (imageFilesState w) = Some f)
    by (unfold find; by rewrite Hfind).
  assert (Hin : ∀ u, u ∈ heldUrls (imageFilesState (handleReset i w)) →
                     u ∈ heldUrls (imageFilesState w)).
  { intros u. rewrite handleReset_files, heldUrls_updated by done.
    by intros [Hu|[=]]%heldUrls_updated_elem. }
  apply (UrlsSound_step w _
           (match compressedUrl f with Some u => [u] | None => [] end)).
  - done.
  - by rewrite (handleReset_found _ _ _ _ Hfind).
  - rewrite (handleReset_found _ _ _ _ Hfind). simpl.
    rewrite !revokedUrls_app. by destruct (compressedUrl f).
  - destruct (compressedUrl f); [apply NoDup_singleton|apply NoDup_nil_2].
  - intros u Hu.
    assert (u ∈ heldUrls (imageFilesState w)).
    { eapply find_heldUrls; [done|]. unfold urlsOf.
      destruct (compressedUrl f); [by right|by apply elem_of_nil in Hu]. }
    split; [by left|].
    rewrite (handleReset_found _ _ _ _ Hfind). simpl. by apply Hhlt.
  - rewrite handleReset_files, heldUrls_updated by done.
    by apply heldUrls_updated_NoDup.
  - intros u Hu. split_and!; [left; by apply Hin| |].
    + rewrite (handleReset_found _ _ _ _ Hfind). simpl. by apply Hhlt, Hin.
    + destruct (compressedUrl f) as [c0|] eqn:Hc; [|apply not_elem_of_nil].
      intros ->%list_elem_of_singleton. revert Hu.
      rewrite handleReset_files, heldUrls_updated by done.
      by apply (reset_url_gone i f).
Qed.

Lemma handleClearAll_UrlsSound w : UrlsSound w → UrlsSound (handleClearAll w).
Proof.
  intros Hw. pose proof Hw as (Hheld & _ & Hhlt & _ & _).
  unfold handleClearAll. rewrite foldl_revokeBoth.
  apply (UrlsSound_step w _ (heldUrls (imageFilesState w))); simpl.
  - done.
  - done.
  - by rewrite !revokedUrls_app, revokedUrls_revocations, app_nil_r.
  - done.
  - intros u Hu. split; [by left|by apply Hhlt].
  - apply NoDup_nil_2.
  - intros u Hu. by apply elem_of_nil in Hu.
Qed.

Lemma resumeResolved_UrlsSound run out w :
  UrlsSound w → UrlsSound (resumeResolved run out w).
Proof.
  intros Hw. pose proof Hw as (Hheld & _ & Hhlt & _ & _).
  unfold resumeResolved.
  apply (UrlsSound_step w _ []); simpl.
  - done.
  - lia.
  - by rewrite !revokedUrls_app, !app_nil_r.
  - apply NoDup_nil_2.
  - intros u Hu. by apply elem_of_nil in Hu.
  - apply heldUrls_updated_NoDup; [done..|].
    intros v [= <-] Hin. apply Hhlt in Hin. lia.
  - intros u [Hu|[= <-]]%heldUrls_updated_elem; [| |done].
    + split_and!; [by left|apply Hhlt in Hu; lia|apply not_elem_of_nil].
    + split_and!; [right; lia|lia|apply not_elem_of_nil].
Qed.

Lemma dispatchEvent_UrlsSound ev w : UrlsSound w → UrlsSound (dispatchEvent ev w).
Proof.
  intros Hw. destruct ev as [files|k|k s un|k|s un| |k c|k|call]; simpl.
  - by apply processFiles_UrlsSound.
  - destruct (cards (page w) !! k); [|done]. by apply handleRemoveImage_UrlsSound.
  - destruct (cards (page w) !! k) as [card|]; [|done].
    destruct (canRerun card); [|done].
    eapply UrlsSound_sameUrls; [done|apply handleTargetSizeApply_sameUrls].
  - destruct (cards (page w) !! k) as [card|]; [|done].
    destruct (canRerun card); [|done]. by apply handleReset_UrlsSound.
  - destruct (applyToAllBtn_disabled _); [done|].
    eapply UrlsSound_sameUrls; [done|apply handleApplyToAll_sameUrls].
  - destruct (clearAllBtn_disabled _); [done|]. by apply handleClearAll_UrlsSound.
  - destruct (inFlight w !! k) as [run|]; [|done].
    by apply (resumeResolved_UrlsSound run c (setInFlight (delete k (inFlight w)) w)).
  - destruct (inFlight w !! k) as [run|]; [|done].
    eapply UrlsSound_sameUrls; [exact Hw|].
    apply (resumeRejected_sameUrls run (setInFlight (delete k (inFlight w)) w)).
  - destruct (templateOnly _); [done|].
    destruct call as [i|i s un|i]; unfold runCall.
    + by apply handleRemoveImage_UrlsSound.
    + eapply UrlsSound_sameUrls; [done|apply handleTargetSizeApply_sameUrls].
    + by apply handleReset_UrlsSound.
Qed.
End UrlsPerEvent.

(** ** What every event keeps: a run for every compressing record *)

Section RunsPerEvent.
Implicit Types (w : World) (fs l : list ImageFileState) (f g : ImageFileState).
Implicit Types (i k : nat) (p : Partial).

Lemma runStep_refl w : runStep w w.
Proof. split; [done|]. intros f' Hf' Hs. right. eauto. Qed.

Lemma runStep_trans w1 w2 w3 : runStep w1 w2 → runStep w2 w3 → runStep w1 w3.
Proof.
  intros [Hr1 Hf1] [Hr2 Hf2]. split; [by eauto|].
  intros f' Hf' Hs. destruct (Hf2 f' Hf' Hs) as [?|(f & Hf & Hid & Hfs)]; [by left|].
  destruct (Hf1 f Hf Hfs) as [Hin|(f0 & ? & Hid0 & ?)].
  - left. rewrite <- Hid. by apply Hr2.
  - right. exists f0. split_and!; [done|congruence|done].
Qed.

Lemma CompressingHasRun_step w w' :
  CompressingHasRun w → runStep w w' → CompressingHasRun w'.
Proof.
  intros Hw [Hr Hf] f' Hf' Hs.
  destruct (Hf f' Hf' Hs) as [?|(f & ? & Hid & ?)]; [done|].
  rewrite <- Hid. apply Hr. by apply Hw.
Qed.

Lemma elem_of_updated i p fs f' :
  upd_id p = None → f' ∈ updated i p fs →
  f' ∈ fs ∨ (id f' = i ∧ ∃ f, f ∈ fs ∧ f' = merge f p).
Proof.
  intros Hp. induction fs as [|g fs IH]; [by left|].
  rewrite updated_cons. case_decide as Hi.
  - intros [->|Hin]%elem_of_cons.
    + right. split; [simpl; by rewrite Hp|]. exists g. split; [left|done].
    + left. by right.
  - intros [->|Hin]%elem_of_cons; [left; left|].
    destruct (IH Hin) as [?|(? & f & ? & ?)]; [left; by right|].
    right. split; [done|]. exists f. split; [by right|done].
Qed.

Lemma elem_of_foldl_updated p l fs f' :
  upd_id p = None →
  f' ∈ foldl (λ acc file, updated (id file) p acc) fs l →
  f' ∈ fs ∨ id f' ∈ id <$> l.
Proof.
  intros Hp. revert fs. induction l as [|g l IH]; intros fs; [by left|].
  simpl. intros [Hin|Hin]%IH; [|right; by right].
  apply (elem_of_updated _ _ _ _ Hp) in Hin as [?|[Hid _]]; [by left|].
  right. rewrite Hid. left.
Qed.

Lemma updateFileState_runStep i p w :
  upd_id p = None → upd_status p = None → runStep w (updateFileState i p w).
Proof.
  intros Hp Hs. split; [done|]. simpl. intros f' Hf' Hst. right.
  apply (elem_of_updated _ _ _ _ Hp) in Hf' as [?|(Hid & f & Hf & ->)]; [eauto|].
  exists f. split_and!; [done|simpl; by rewrite Hp|].
  simpl in Hst. by rewrite Hs in Hst.
Qed.

Lemma compressToTargetSize_runStep i bytes quiet w :
  runStep w (compressToTargetSize i bytes quiet w).
Proof.
  destruct (list_find (λ f, id f = i) (imageFilesState w)) as [[k f]|] eqn:Hfind.
  2:{ rewrite compressToTargetSize_absent; [apply runStep_refl|].
      unfold find. by rewrite Hfind. }
  destruct quiet.
  - rewrite (compressToTargetSize_quiet _ _ _ _ _ Hfind). split; simpl.
    + intros x Hx. rewrite fmap_app, elem_of_app. by left.
    + intros f' Hf' Hs. right. eauto.
  - assert (Hfiles := compressToTargetSize_files i bytes w).
    rewrite (compressToTargetSize_found _ _ _ _ _ Hfind) in *. split; simpl.
    + intros x Hx. rewrite fmap_app, elem_of_app. by left.
    + simpl in Hfiles. rewrite Hfiles. intros f' Hf' Hs.
      apply elem_of_updated in Hf' as [?|[Hid _]]; [right; eauto| |done].
      left. rewrite fmap_app, elem_of_app. right. rewrite Hid. left.
Qed.

Lemma runCompressionForId_runStep i w : runStep w (runCompressionForId i w).
Proof.
  unfold runCompressionForId. destruct (find i (imageFilesState w)).
  - apply compressToTargetSize_runStep.
  - apply runStep_refl.
Qed.

Lemma handleTargetSizeApply_runStep i newSize newUnit w :
  runStep w (handleTargetSizeApply i newSize newUnit w).
Proof.
  unfold handleTargetSizeApply. eapply runStep_trans.
  - by apply (updateFileState_runStep i (newTarget newSize newUnit)).
  - apply runCompressionForId_runStep.
Qed.

Lemma handleReset_runStep i w : runStep w (handleReset i w).
Proof.
  unfold handleReset. destruct (find i (imageFilesState w)) as [f|];
    [|apply runStep_refl].
  eapply runStep_trans; [|apply runCompressionForId_runStep].
  eapply runStep_trans; [|by apply (updateFileState_runStep i resetTarget)].
  destruct (compressedUrl f); [|apply runStep_refl].
  split; [done|]. intros f' Hf' Hs. right. eauto.
Qed.

Lemma handleRemoveImage_runStep i w : runStep w (handleRemoveImage i w).
Proof.
  split.
  - unfold handleRemoveImage. simpl. destruct (find _ _) as [file|]; [|done].
    by rewrite revokeBoth_trace.
  - rewrite handleRemoveImage_files.
    intros f' [_ Hf']%list_elem_of_filter Hs. right. eauto.
Qed.

Lemma is_found i fs :
  i ∈ id <$> fs → ∃ k g, list_find (λ f, id f = i) fs = Some (k, g).
Proof.
  intros (f & -> & Hf)%list_elem_of_fmap.
  destruct (list_find_elem_of (λ g, id g = id f) fs f Hf eq_refl) as [[k g] ?].
  eauto.
Qed.

Lemma foldl_runCompressionForId_runs l w :
  (∀ f, f ∈ l → id f ∈ id <$> imageFilesState w) →
  run_id <$> inFlight (foldl (λ acc file, runCompressionForId (id file) acc) w l)
  = (run_id <$> inFlight w) ++ (id <$> l).
Proof.
  revert w. induction l as [|f l IH]; intros w Hl; simpl.
  { by rewrite app_nil_r. }
  rewrite IH.
  - destruct (is_found (id f) (imageFilesState w)) as (k & g & Hfind);
      [apply Hl; left|].
    rewrite (runCompressionForId_found _ _ _ _ Hfind).
    rewrite (compressToTargetSize_found _ _ _ _ _ Hfind). simpl.
    by rewrite fmap_app, <- app_assoc.
  - intros g Hg. rewrite runCompressionForId_files, updated_ids by done.
    apply Hl. by right.
Qed.

Lemma foldl_compressToTargetSize_quiet_runs bytes l w :
  (∀ f, f ∈ l → id f ∈ id <$> imageFilesState w) →
  run_id <$> inFlight
    (foldl (λ acc file, compressToTargetSize (id file) bytes true acc) w l)
  = (run_id <$> inFlight w) ++ (id <$> l).
Proof.
  revert w. induction l as [|f l IH]; intros w Hl; simpl.
  { by rewrite app_nil_r. }
  rewrite IH.
  - destruct (is_found (id f) (imageFilesState w)) as (k & g & Hfind);
      [apply Hl; left|].
    rewrite (compressToTargetSize_quiet _ _ _ _ _ Hfind). simpl.
    by rewrite fmap_app, <- app_assoc.
  - intros g Hg. rewrite compressToTargetSize_quiet_files. apply Hl. by right.
Qed.

Lemma processFiles_runStep files w : runStep w (processFiles files w).
Proof.
  assert (Hfiles := processFiles_files files w). simpl in Hfiles.
  assert (Hruns :
    run_id <$> inFlight (processFiles files w)
    = (run_id <$> inFlight w) ++
      (id <$> imap (λ n file, newRecord (nextId w + n) file (urlCounter w + n)) files)).
  { unfold processFiles. rewrite newFileStates_spec.
    rewrite foldl_runCompressionForId_runs; [done|].
    intros f Hf. simpl. rewrite fmap_app, elem_of_app. right.
    by apply list_elem_of_fmap_2. }
  split.
  - intros x Hx. rewrite Hruns, elem_of_app. by left.
  - rewrite Hfiles, Hruns. intros f' Hf' Hs.
    apply elem_of_foldl_updated in Hf' as [[Hf'|Hf']%elem_of_app|Hf']; [| | |done].
    + right. eauto.
    + left. rewrite elem_of_app. right. by apply list_elem_of_fmap_2.
    + left. rewrite elem_of_app. by right.
Qed.

Lemma foldl_updateFileState_inFlight l p w :
  inFlight (foldl (λ acc file, updateFileState (id file) p acc) w l) = inFlight w.
Proof.
  revert w. induction l as [|f l IH]; intros w; [done|]. simpl. by rewrite IH.
Qed.

Lemma handleApplyToAll_runStep newSize newUnit w :
  runStep w (handleApplyToAll newSize newUnit w).
Proof.
  unfold handleApplyToAll.
  destruct (is_nan newSize || (newSize <=? 0)%float).
  { split; [done|]. intros f' Hf' Hs. right. eauto. }
  case_bool_decide; [apply runStep_refl|].
  set (eligible := filter (λ f, status f ≠ error) (imageFilesState w)).
  set (w1 := foldl (λ acc file,
                updateFileState (id file) (bulkTarget newSize newUnit) acc)
                w eligible).
  assert (Hfiles1 : imageFilesState w1
    = foldl (λ acc file, updated (id file) (bulkTarget newSize newUnit) acc)
        (imageFilesState w) eligible)
    by apply foldl_updateFileState_files.
  assert (Hin1 : inFlight w1 = inFlight w)
    by apply foldl_updateFileState_inFlight.
  assert (Hruns : run_id <$> inFlight
      (foldl (λ acc file,
         compressToTargetSize (id file) (newSize * multiplier newUnit)%float true acc)
         (render w1) eligible)
    = (run_id <$> inFlight w) ++ (id <$> eligible)).
  { rewrite foldl_compressToTargetSize_quiet_runs; [simpl; by rewrite Hin1|].
    intros f Hf. simpl. rewrite Hfiles1, foldl_updated_ids by done.
    apply list_elem_of_fmap_2. subst eligible.
    by apply list_elem_of_filter in Hf as [_ ?]. }
  split.
  - intros x Hx. rewrite Hruns, elem_of_app. by left.
  - rewrite foldl_compressToTargetSize_quiet_files, Hruns. simpl.
    rewrite Hfiles1. intros f' Hf' Hs.
    apply elem_of_foldl_updated in Hf' as [Hf'|Hf']; [right; eauto| |done].
    left. rewrite elem_of_app. by right.
Qed.

Lemma elem_of_delete_other {A} (l : list A) k r x :
  l !! k = Some r → x ∈ l → x ≠ r → x ∈ delete k l.
Proof.
  intros Hk Hx Hne. rewrite delete_take_drop.
  rewrite <- (take_drop_middle l k r Hk) in Hx.
  rewrite elem_of_app, elem_of_cons in Hx. rewrite elem_of_app.
  destruct Hx as [?|[?|?]]; [by left|done|by right].
Qed.

(** A run that settles takes its own entry off the runs in flight and
    leaves its record not compressing; with one record per id, no other
    compressing record loses its run. *)
Lemma settle_CompressingHasRun k run p w :
  UniqueIds w → CompressingHasRun w →
  inFlight w !! k = Some run →
  upd_id p = None → (∃ s, upd_status p = Some s ∧ s ≠ compressing) →
  ∀ f', f' ∈ updated (run_id run) p (imageFilesState w) →
        status f' = compressing →
        id f' ∈ run_id <$> delete k (inFlight w).
Proof.
  intros [Hnd _] Hinv Hk Hp (s & Hs & Hne) f'.
  rewrite updated_map by done.
  intros (f & -> & Hf)%list_elem_of_fmap. case_decide as Hi.
  - simpl. rewrite Hs. simpl. done.
  - intros Hst. specialize (Hinv f Hf Hst).
    apply list_elem_of_fmap in Hinv as (r & Hid & Hr).
    rewrite Hid. apply list_elem_of_fmap_2.
    eapply elem_of_delete_other; [done..|]. intros ->. congruence.
Qed.

Lemma dispatchEvent_CompressingHasRun ev w :
  UniqueIds w → CompressingHasRun w → CompressingHasRun (dispatchEvent ev w).
Proof.
  intros Huniq Hw.
  assert (Hstep : ∀ w', runStep w w' → CompressingHasRun w')
    by (intros; by eapply CompressingHasRun_step).
  destruct ev as [files|k|k s un|k|s un| |k c|k|call]; simpl.
  - apply Hstep, processFiles_runStep.
  - destruct (cards (page w) !! k); [|done]. apply Hstep, handleRemoveImage_runStep.
  - destruct (cards (page w) !! k) as [card|]; [|done].
    destruct (canRerun card); [|done]. apply Hstep, handleTargetSizeApply_runStep.
  - destruct (cards (page w) !! k) as [card|]; [|done].
    destruct (canRerun card); [|done]. apply Hstep, handleReset_runStep.
  - destruct (applyToAllBtn_disabled _); [done|].
    apply Hstep, handleApplyToAll_runStep.
  - destruct (clearAllBtn_disabled _); [done|].
    intros f Hf. simpl in Hf. by apply elem_of_nil in Hf.
  - destruct (inFlight w !! k) as [run|] eqn:Hk; [|done].
    unfold resumeResolved, CompressingHasRun. simpl.
    eapply settle_CompressingHasRun; [done..|]. by exists done.
  - destruct (inFlight w !! k) as [run|] eqn:Hk; [|done].
    unfold resumeRejected, CompressingHasRun. simpl.
    eapply settle_CompressingHasRun; [done..|]. by exists error.
  - destruct (templateOnly _); [done|].
    destruct call as [i|i s un|i]; unfold runCall.
    + apply Hstep, handleRemoveImage_runStep.
    + apply Hstep, handleTargetSizeApply_runStep.
    + apply Hstep, handleReset_runStep.
Qed.
End RunsPerEvent.

(** ** Download all *)

Section DownloadAll.
Implicit Types (d : Desk) (w : World) (fs : list ImageFileState) (f : ImageFileState).

(** X7. [handleDownloadAll] gives the zip one entry per record that is
    done and holds a compressed file, in store order, named "compressed-"
    followed by the original name and carrying the compressed file; their
    number is the count on the download badge.  Equal names are not told
    apart. *)
Theorem zipEntries_spec (fs : list ImageFileState) :
  let ready := filter (λ f, status f = done ∧ is_Some (compressedFile f)) fs in
  length (zipEntries fs) = readyToDownloadCount fs ∧
  entry_name <$> zipEntries fs
    = (λ f, "compressed-" +:+ name (originalFile f)) <$> ready ∧
  Some ∘ entry_data <$> zipEntries fs = compressedFile <$> ready.
Proof.
  intros ready. unfold zipEntries, readyToDownloadCount. fold ready.
  assert (Hall : Forall (λ f, is_Some (compressedFile f)) ready).
  { apply Forall_forall. by intros f [[_ ?] _]%list_elem_of_filter. }
  clearbody ready. induction Hall as [|f ready [c Hc] _ IH]; [done|].
  destruct IH as (IH1 & IH2 & IH3).
  cbn [omap list_omap]. rewrite Hc. cbn [fmap option_fmap option_map].
  rewrite !fmap_cons. cbn [length]. rewrite IH1, IH2, IH3.
  cbn [entry_name entry_data compose]. by rewrite Hc.
Qed.

(** What the export events do to the world they share with the page. *)
Lemma export_world ev d :
  isPageEvent ev = false →
  let w := world d in
  let w' := world (dispatchDeskEvent ev d) in
  imageFilesState w' = imageFilesState w ∧ nextId w' = nextId w ∧
  inFlight w' = inFlight w ∧ cards (page w') = cards (page w) ∧
  applyToAllBtn_disabled (toolbar (page w'))
    = applyToAllBtn_disabled (toolbar (page w)) ∧
  clearAllBtn_disabled (toolbar (page w'))
    = clearAllBtn_disabled (toolbar (page w)) ∧
  ((urlCounter w' = urlCounter w ∧
    createdUrls (trace w') = createdUrls (trace w) ∧
    revokedUrls (trace w') = revokedUrls (trace w)) ∨
   (urlCounter w' = S (urlCounter w) ∧
    createdUrls (trace w') = createdUrls (trace w) ++ [urlCounter w] ∧
    revokedUrls (trace w') = revokedUrls (trace w) ++ [urlCounter w])).
Proof.
  destruct ev as [e| |k|k]; [done|..]; intros _; simpl.
  - destruct (downloadAllBtn_disabled _); simpl; split_and!; try done; by left.
  - destruct (generating d !! k); simpl; split_and!; try done; [|by left].
    right. split_and!; [done|..].
    + unfold createdUrls. rewrite !omap_app. simpl. by rewrite app_nil_r.
    + rewrite !revokedUrls_app. simpl. by rewrite app_nil_r.
  - destruct (generating d !! k); simpl; split_and!; try done; [|by left].
    left. split_and!; [done|..].
    + unfold createdUrls. rewrite omap_app. simpl. by rewrite app_nil_r.
    + rewrite revokedUrls_app. simpl. by rewrite app_nil_r.
Qed.
End DownloadAll.

(** X8. The export (a click on Download all, and either way its archive
    settles) writes neither the store, the id counter, the runs in flight,
    the cards nor the apply-to-all and clear-all buttons; the only object
    URL it creates, for the archive, it revokes in the same resumption. *)
Theorem export_keeps_store (ev : DeskEvent) (d : Desk) :
  isPageEvent ev = false →
  let w := world d in
  let w' := world (dispatchDeskEvent ev d) in
  imageFilesState w' = imageFilesState w ∧ nextId w' = nextId w ∧
  inFlight w' = inFlight w ∧ cards (page w') = cards (page w) ∧
  applyToAllBtn_disabled (toolbar (page w'))
    = applyToAllBtn_disabled (toolbar (page w)) ∧
  clearAllBtn_disabled (toolbar (page w'))
    = clearAllBtn_disabled (toolbar (page w)) ∧
  ((urlCounter w' = urlCounter w ∧
    createdUrls (trace w') = createdUrls (trace w) ∧
    revokedUrls (trace w') = revokedUrls (trace w)) ∨
   (urlCounter w' = S (urlCounter w) ∧
    createdUrls (trace w') = createdUrls (trace w) ++ [urlCounter w] ∧
    revokedUrls (trace w') = revokedUrls (trace w) ++ [urlCounter w])).
Proof. apply export_world. Qed.

(** ** What holds after every sequence of events *)

Section DeskInvariants.
Implicit Types (d : Desk) (w : World) (fs : list ImageFileState) (f : ImageFileState).

Lemma initialDesk_sound g : DeskSound (initialDesk g).
Proof.
  split_and!; simpl.
  - by split.
  - split; [apply NoDup_nil_2|apply Forall_nil_2].
  - apply Forall_nil_2.
  - split_and!; simpl; try apply NoDup_nil_2; intros u Hu; by apply elem_of_nil in Hu.
  - intros f Hf. by apply elem_of_nil in Hf.
Qed.

Lemma dispatchDeskEvent_sound ev d : DeskSound d → DeskSound (dispatchDeskEvent ev d).
Proof.
  intros (Hsync & Huniq & Hdone & Hurls & Hruns).
  destruct (isPageEvent ev) eqn:Hev.
  - destruct ev as [e| | |]; try done. simpl. split_and!; simpl.
    + eapply Synced_step; [done|apply dispatchEvent_pageStep].
    + by apply dispatchEvent_UniqueIds.
    + by apply dispatchEvent_doneHasBoth.
    + by apply dispatchEvent_UrlsSound.
    + by apply dispatchEvent_CompressingHasRun.
  - destruct (export_world ev d Hev) as (Hf & Hn & Hi & Hc & Ha & Hcl & Hurl).
    simpl in *. split_and!.
    + unfold Synced. by rewrite Hf, Hc, Ha, Hcl.
    + unfold UniqueIds. by rewrite Hf, Hn.
    + by rewrite Hf.
    + destruct Hurl as [(Hcnt & _ & Hrev)|(Hcnt & _ & Hrev)].
      * unfold UrlsSound. by rewrite Hf, Hcnt, Hrev.
      * pose proof Hurls as (Hheld & _ & Hhlt & _ & _).
        apply (UrlsSound_step (world d) _ [urlCounter (world d)]);
          rewrite ?Hf, ?Hcnt; try done.
        -- lia.
        -- apply NoDup_singleton.
        -- intros u ->%list_elem_of_singleton. split; [right|]; lia.
        -- intros u Hu. split_and!; [by left|apply Hhlt in Hu; lia|].
           intros ->%list_elem_of_singleton. apply Hhlt in Hu. lia.
    + unfold CompressingHasRun. by rewrite Hf, Hi.
Qed.

Lemma runDesk_sound evs d : DeskSound d → DeskSound (runDesk evs d).
Proof.
  revert d. induction evs as [|ev evs IH]; intros d Hd; [done|].
  simpl. by apply IH, dispatchDeskEvent_sound.
Qed.

Lemma reached_sound g evs : DeskSound (runDesk evs (initialDesk g)).
Proof. apply runDesk_sound, initialDesk_sound. Qed.
End DeskInvariants.

(** X9. After every sequence of events, export included, the store holds
    one record per id, and every stored id is below the id counter. *)
Theorem ids_stay_unique (g : GlobalUI) (evs : list DeskEvent) :
  let w := world (runDesk evs (initialDesk g)) in
  NoDup (id <$> imageFilesState w) ∧
  Forall (λ i, i < nextId w) (id <$> imageFilesState w).
Proof. by destruct (reached_sound g evs) as (_ & ? & _). Qed.

(** X10. After every sequence of events, export included, the result list
    shows the store: one card per record, in order, as [createCardElement]
    draws it from the record's current fields; and once there is a record
    the apply-to-all and clear-all buttons are disabled exactly when some
    record is compressing. *)
Theorem page_shows_store (g : GlobalUI) (evs : list DeskEvent) :
  let w := world (runDesk evs (initialDesk g)) in
  cards (page w) = createCardElement <$> imageFilesState w ∧
  (imageFilesState w ≠ [] →
   applyToAllBtn_disabled (toolbar (page w)) = anyCompressing (imageFilesState w) ∧
   clearAllBtn_disabled (toolbar (page w)) = anyCompressing (imageFilesState w)).
Proof. by destruct (reached_sound g evs) as (? & _). Qed.

(** X11. After every sequence of events, export included, every record
    that is done holds a compressed file and a compressed object URL, so
    its card carries the download link, and the count on the download
    badge is the number of done records.  Which image the file was made
    from is not stated: it is the result of the last run that resolved
    onto the record's id, and after Clear all an id can pass to a new
    record while a run of the old one is in flight. *)
Theorem done_records_are_downloadable (g : GlobalUI) (evs : list DeskEvent) :
  let w := world (runDesk evs (initialDesk g)) in
  (∀ k f, imageFilesState w !! k = Some f → status f = done →
     is_Some (compressedFile f) ∧ is_Some (compressedUrl f) ∧
     hasDownloadLink <$> cards (page w) !! k = Some true) ∧
  readyToDownloadCount (imageFilesState w)
  = length (filter (λ f, status f = done) (imageFilesState w)).
Proof.
  destruct (reached_sound g evs) as ([Hcards _] & _ & Hdone & _). simpl.
  split.
  - intros k f Hk Hst. rewrite Forall_lookup in Hdone.
    destruct (Hdone k f Hk Hst) as [Hfile Hurl]. split_and!; [done..|].
    rewrite Hcards, list_lookup_fmap, Hk. simpl. rewrite Hst.
    by rewrite (bool_decide_eq_true_2 _ Hurl).
  - apply readyToDownloadCount_done.
    eapply Forall_impl; [done|]. intros f Hf Hst. by apply Hf.
Qed.

(** X12. After every sequence of events, export included: no object URL
    was revoked twice, no record holds a revoked object URL, no object
    URL is held twice, and every URL held or revoked was handed out. *)
Theorem urls_stay_sound (g : GlobalUI) (evs : list DeskEvent) :
  let w := world (runDesk evs (initialDesk g)) in
  NoDup (heldUrls (imageFilesState w)) ∧
  NoDup (revokedUrls (trace w)) ∧
  (∀ u, u ∈ heldUrls (imageFilesState w) → u < urlCounter w) ∧
  (∀ u, u ∈ revokedUrls (trace w) → u < urlCounter w) ∧
  (∀ u, u ∈ heldUrls (imageFilesState w) → u ∉ revokedUrls (trace w)).
Proof. by destruct (reached_sound g evs) as (_ & _ & _ & ? & _). Qed.

(** X13. After every sequence of events, export included, every record
    that is compressing has a call of [imageCompression] in flight for
    its id: a spinner is never left without a run that can end it. *)
Theorem compressing_records_have_runs (g : GlobalUI) (evs : list DeskEvent) :
  let w := world (runDesk evs (initialDesk g)) in
  ∀ f, f ∈ imageFilesState w → status f = compressing →
       id f ∈ run_id <$> inFlight w.
Proof. by destruct (reached_sound g evs) as (_ & _ & _ & _ & ?). Qed.

(** ** Clicks on cards and on the toolbar, after any history *)

Section ClicksAfterHistory.
Implicit Types (d : Desk) (w : World) (fs : list ImageFileState) (f g : ImageFileState).

Lemma find_absent_ids (i : nat) fs : i ∉ id <$> fs → find i fs = None.
Proof.
  induction fs as [|f fs IH]; [done|].
  rewrite fmap_cons, not_elem_of_cons, find_cons. intros [Hne Hin].
  rewrite decide_False by done. by apply IH.
Qed.

Lemma filter_delete (k : nat) f fs :
  NoDup (id <$> fs) → fs !! k = Some f →
  filter (λ g, id g ≠ id f) fs = delete k fs.
Proof.
  revert k. induction fs as [|g fs IH]; intros k; [done|].
  rewrite fmap_cons, NoDup_cons. intros [Hg Hnd] Hk.
  destruct k as [|k]; simpl in Hk.
  - simplify_eq. rewrite filter_cons_False by (intros Hne; by apply Hne).
    simpl. by apply filter_absent, find_absent_ids.
  - rewrite filter_cons_True.
    + simpl. f_equal. by apply IH.
    + intros Hid. apply Hg. rewrite Hid.
      apply list_elem_of_fmap_2. by eapply list_elem_of_lookup_2.
Qed.

Lemma handleApplyToAll_files_exact newSize newUnit w :
  imageFilesState (handleApplyToAll newSize newUnit w) =
  if is_nan newSize || (newSize <=? 0)%float then imageFilesState w
  else foldl (λ acc file, updated (id file) (bulkTarget newSize newUnit) acc)
         (imageFilesState w)
         (filter (λ f, status f ≠ error) (imageFilesState w)).
Proof.
  unfold handleApplyToAll.
  destruct (is_nan newSize || (newSize <=? 0)%float); [done|].
  case_bool_decide as Hlen.
  - by destruct (filter _ _).
  - rewrite foldl_compressToTargetSize_quiet_files. simpl.
    by rewrite foldl_updateFileState_files.
Qed.

(** The runs [handleApplyToAll] starts are for records that are stored
    and not in status error. *)
Lemma handleApplyToAll_started newSize newUnit w :
  ∃ l, (∀ f, f ∈ l → f ∈ imageFilesState w ∧ status f ≠ error) ∧
       run_id <$> inFlight (handleApplyToAll newSize newUnit w)
       = (run_id <$> inFlight w) ++ (id <$> l).
Proof.
  assert (Hnone : ∃ l, (∀ f, f ∈ l → f ∈ imageFilesState w ∧ status f ≠ error) ∧
            run_id <$> inFlight w = (run_id <$> inFlight w) ++ (id <$> l)).
  { exists []. split; [by intros f ?%elem_of_nil|by rewrite app_nil_r]. }
  unfold handleApplyToAll.
  destruct (is_nan newSize || (newSize <=? 0)%float); [done|].
  case_bool_decide as Hlen; [done|].
  exists (filter (λ f, status f ≠ error) (imageFilesState w)). split.
  { intros f Hf%list_elem_of_filter. tauto. }
  rewrite foldl_compressToTargetSize_quiet_runs.
  - simpl. by rewrite foldl_updateFileState_inFlight.
  - intros f [_ Hf]%list_elem_of_filter. simpl.
    rewrite foldl_updateFileState_files, foldl_updated_ids by done.
    by apply list_elem_of_fmap_2.
Qed.
End ClicksAfterHistory.

(** X14. After every sequence of events, export included, that leaves
    no card whose file name carries markup: a click on the Remove button
    of the card at position [k] removes the record at position [k] and no
    other, revokes the object URLs of that record, and leaves the runs in
    flight alone; where there is no such card nothing happens; and the
    cards hold no other element through which a click reaches the
    listener. *)
Theorem click_remove_removes_that_card (g : GlobalUI) (evs : list DeskEvent) (k : nat) :
  let w := world (runDesk evs (initialDesk g)) in
  templateOnly (page w) = true →
  dispatchEvent (ClickRemove k) w =
  match imageFilesState w !! k with
  | Some f =>
      let fs' := delete k (imageFilesState w) in
      {| imageFilesState := fs'; nextId := nextId w; page := pageOf fs';
         urlCounter := urlCounter w; inFlight := inFlight w;
         trace := trace w ++ revocations f ++ [Render fs'] |}
  | None => w
  end ∧
  (∀ call, dispatchEvent (ClickPasted call) w = w).
Proof.
  destruct (reached_sound g evs) as ([Hcards _] & [Hnd _] & _). simpl.
  intros Hplain. split; [|intros call; by rewrite Hplain].
  rewrite Hcards, list_lookup_fmap.
  destruct (imageFilesState _ !! k) as [f|] eqn:Hk; [|done]. simpl.
  unfold handleRemoveImage. rewrite (find_NoDup k) by done.
  rewrite revokeBoth_trace. unfold_world.
  rewrite (filter_delete k) by done. by rewrite <- app_assoc.
Qed.

Lemma click_remove_removes_that_card_witness :
  let evs := [PageEvent (FilesChosen [fileA; fileB])] in
  let w := world (runDesk evs (initialDesk toolbar0)) in
  templateOnly (page w) = true ∧
  originalFile <$> imageFilesState w = [fileA; fileB] ∧
  originalFile <$> imageFilesState (dispatchEvent (ClickRemove 0) w) = [fileB].
Proof.
  intros evs w.
  assert (Hplain : templateOnly (page w) = true) by (by vm_compute).
  destruct (click_remove_removes_that_card toolbar0 evs 0 Hplain) as [H _].
  split_and!; [exact Hplain|by vm_compute|].
  fold w in H. rewrite H. by vm_compute.
Defined.

(** X15. After every sequence of events, export included, that leaves
    no card whose file name carries markup, no click runs a record in
    status error again: its card offers neither Apply nor Reset and the
    cards hold no other element that reaches the listener, so those
    clicks change nothing; Apply to all leaves the record exactly as it
    is and starts no run for its id. *)
Theorem error_record_is_never_rerun (g : GlobalUI) (evs : list DeskEvent)
    (k : nat) (f : ImageFileState) :
  let w := world (runDesk evs (initialDesk g)) in
  templateOnly (page w) = true →
  imageFilesState w !! k = Some f → status f = error →
  (∀ sizeInput unitSelect, dispatchEvent (ClickApply k sizeInput unitSelect) w = w) ∧
  dispatchEvent (ClickReset k) w = w ∧
  (∀ call, dispatchEvent (ClickPasted call) w = w) ∧
  (∀ sizeInput unitSelect,
     let w' := dispatchEvent (ClickApplyToAll sizeInput unitSelect) w in
     imageFilesState w' !! k = Some f ∧
     ∃ started, run_id <$> inFlight w' = (run_id <$> inFlight w) ++ started
                ∧ id f ∉ started).
Proof.
  destruct (reached_sound g evs) as ([Hcards _] & [Hnd _] & _). simpl.
  intros Hplain Hk Hstatus.
  assert (Hcard : cards (page (world (runDesk evs (initialDesk g)))) !! k
                  = Some (createCardElement f))
    by (by rewrite Hcards, list_lookup_fmap, Hk).
  assert (Hoff : canRerun (createCardElement f) = false).
  { unfold canRerun, createCardElement. simpl. by rewrite Hstatus. }
  assert (Hother : ∀ f0, f0 ∈ imageFilesState (world (runDesk evs (initialDesk g))) →
                          status f0 ≠ error → id f0 ≠ id f).
  { intros f0 Hin Hne Hid. apply Hne. rewrite <- Hstatus. f_equal.
    eapply NoDup_ids_inj; [done..| |done]. by eapply list_elem_of_lookup_2. }
  split_and!; intros; simpl.
  - by rewrite Hcard, Hoff.
  - by rewrite Hcard, Hoff.
  - by rewrite Hplain.
  - destruct (applyToAllBtn_disabled _).
    { split; [done|]. exists []. split; [by rewrite app_nil_r|apply not_elem_of_nil]. }
    split.
    + rewrite handleApplyToAll_files_exact.
      destruct (is_nan sizeInput || (sizeInput <=? 0)%float); [done|].
      rewrite foldl_updated_map by done.
      rewrite list_lookup_fmap, Hk. simpl. rewrite decide_False; [done|].
      intros (f0 & Hid & [Hne Hin]%list_elem_of_filter)%list_elem_of_fmap.
      by apply (Hother f0).
    + destruct (handleApplyToAll_started sizeInput unitSelect
                  (world (runDesk evs (initialDesk g)))) as (l & Hl & Hruns).
      exists (id <$> l). split; [done|].
      intros (f0 & Hid & [Hin Hne]%Hl)%list_elem_of_fmap.
      by apply (Hother f0).
Qed.

Lemma error_record_is_never_rerun_witness :
  let evs := [PageEvent (FilesChosen [fileA; fileB]); PageEvent (Rejected 0)] in
  let w := world (runDesk evs (initialDesk toolbar0)) in
  templateOnly (page w) = true ∧
  imageFilesState w !! 0 = Some (asFailed (newRecord 0 fileA 0)) ∧
  status (asFailed (newRecord 0 fileA 0)) = error ∧
  dispatchEvent (ClickReset 0) w = w.
Proof.
  intros evs w.
  assert (Hplain : templateOnly (page w) = true) by (by vm_compute).
  assert (Hk : imageFilesState w !! 0 = Some (asFailed (newRecord 0 fileA 0)))
    by (vm_compute; reflexivity).
  destruct (error_record_is_never_rerun toolbar0 evs 0 _ Hplain Hk eq_refl)
    as (_ & H & _).
  split_and!; [exact Hplain|exact Hk|reflexivity|exact H].
Defined.

(** X16. After every sequence of events, export included, while some
    record is compressing the Apply-to-all and Clear-all buttons are
    disabled: those clicks change nothing, so the store is never cleared
    and no bulk target is set while a record is compressing. *)
Theorem bulk_buttons_wait_for_runs (g : GlobalUI) (evs : list DeskEvent) :
  let w := world (runDesk evs (initialDesk g)) in
  anyCompressing (imageFilesState w) = true →
  (∀ sizeInput unitSelect, dispatchEvent (ClickApplyToAll sizeInput unitSelect) w = w) ∧
  dispatchEvent ClickClearAll w = w.
Proof.
  destruct (reached_sound g evs) as ([_ Htool] & _). simpl. intros Hany.
  destruct Htool as [Ha Hc].
  { intros Hnil. rewrite Hnil in Hany. by vm_compute in Hany. }
  split; intros; simpl.
  - by rewrite Ha, Hany.
  - by rewrite Hc, Hany.
Qed.

Lemma bulk_buttons_wait_for_runs_witness :
  let evs := [PageEvent (FilesChosen [fileA])] in
  let w := world (runDesk evs (initialDesk toolbar0)) in
  anyCompressing (imageFilesState w) = true ∧ dispatchEvent ClickClearAll w = w.
Proof.
  intros evs w.
  assert (Hany : anyCompressing (imageFilesState w) = true) by (by vm_compute).
  split; [exact Hany|]. by destruct (bulk_buttons_wait_for_runs toolbar0 evs Hany).
Defined.

(** ** Object URLs and the download button around an export *)

Lemma dispatchDeskEvent_Lost (u : ObjectUrl) (ev : DeskEvent) (d : Desk) :
  Lost u (world d) → Lost u (world (dispatchDeskEvent ev d)).
Proof.
  intros Hlost. destruct (isPageEvent ev) eqn:Hev.
  - destruct ev as [e| | |]; try done. simpl.
    eapply Lost_step; [done|apply dispatchEvent_urlStep].
  - destruct Hlost as (Hlt & Hheld & Hrev).
    destruct (export_world ev d Hev) as (Hf & _ & _ & _ & _ & _ & Hurl).
    simpl in *. unfold Lost. rewrite Hf.
    destruct Hurl as [(-> & _ & ->)|(-> & _ & ->)]; [done|].
    split_and!; [lia|done|].
    intros [Hin | Hin%list_elem_of_singleton]%elem_of_app; [done|lia].
Qed.

(** X17. An object URL that was handed out, that no record holds and that
    was not revoked stays so whatever happens next, export included: it is
    never revoked and never stored again. *)
Theorem lost_url_stays_lost (u : ObjectUrl) (d : Desk) (evs : list DeskEvent) :
  u < urlCounter (world d) →
  u ∉ heldUrls (imageFilesState (world d)) →
  u ∉ revokedUrls (trace (world d)) →
  let w' := world (runDesk evs d) in
  u < urlCounter w' ∧
  (u ∉ heldUrls (imageFilesState w')) ∧ (u ∉ revokedUrls (trace w')).
Proof.
  intros Hlt Hheld Hrev. simpl.
  assert (Hlost : Lost u (world d)) by done. clear Hlt Hheld Hrev.
  revert d Hlost. induction evs as [|ev evs IH]; intros d Hlost; [done|].
  simpl. by apply IH, dispatchDeskEvent_Lost.
Qed.

Lemma lost_url_stays_lost_witness :
  let d := runDesk [PageEvent (FilesChosen [fileA]); PageEvent (ClickRemove 0);
                    PageEvent (Resolved 0 outA)] (initialDesk toolbar0) in
  1 < urlCounter (world d) ∧
  (1 ∉ heldUrls (imageFilesState (world d))) ∧
  (1 ∉ revokedUrls (trace (world d))) ∧
  (1 ∉ revokedUrls (trace (world (runDesk [PageEvent ClickClearAll] d)))).
Proof.
  intros d.
  assert (H1 : 1 < urlCounter (world d)) by compute_done.
  assert (H2 : 1 ∉ heldUrls (imageFilesState (world d))) by compute_done.
  assert (H3 : 1 ∉ revokedUrls (trace (world d))) by compute_done.
  destruct (lost_url_stays_lost 1 d [PageEvent ClickClearAll] H1 H2 H3) as (_ & _ & H).
  split_and!; assumption.
Defined.

(** X18. When an archive settles, either way, the [finally] block hides
    the zipping label and enables the download button without looking at
    the store: the button is left enabled also when a record is
    compressing or no record is done, where [updateGlobalUI] has it
    disabled; the store is not touched. *)
Theorem export_reenables_download (d : Desk) (k : nat) (es : list ZipEntry)
    (ev : DeskEvent) :
  generating d !! k = Some es →
  ev = Generated k ∨ ev = GenerateFailed k →
  anyCompressing (imageFilesState (world d)) = true
  ∨ anyDone (imageFilesState (world d)) = false →
  let d' := dispatchDeskEvent ev d in
  zippingShown d' = false ∧
  generating d' = delete k (generating d) ∧
  imageFilesState (world d') = imageFilesState (world d) ∧
  downloadAllBtn_disabled (toolbar (page (world d'))) = false ∧
  downloadAllBtn_disabled (updateGlobalUI (imageFilesState (world d'))) = true.
Proof.
  intros Hk Hev Hstore. simpl.
  assert (Hrule : downloadAllBtn_disabled
            (updateGlobalUI (imageFilesState (world d))) = true).
  { simpl. destruct Hstore as [-> | ->]; [done|]. apply orb_true_r. }
  destruct Hev as [-> | ->]; simpl; rewrite Hk; by split_and!.
Qed.

Lemma export_reenables_download_witness :
  let d := runDesk [PageEvent (FilesChosen [fileA]); PageEvent (Resolved 0 outA);
                    ClickDownloadAll; PageEvent (FilesChosen [fileB])]
             (initialDesk toolbar0) in
  generating d !! 0 = Some (zipEntries (imageFilesState doneWorld)) ∧
  (anyCompressing (imageFilesState (world d)) = true
   ∨ anyDone (imageFilesState (world d)) = false) ∧
  downloadAllBtn_disabled (toolbar (page (world d))) = true ∧
  downloadAllBtn_disabled
    (toolbar (page (world (dispatchDeskEvent (Generated 0) d)))) = false.
Proof.
  intros d.
  assert (Hk : generating d !! 0 = Some (zipEntries (imageFilesState doneWorld)))
    by (vm_compute; reflexivity).
  assert (Hany : anyCompressing (imageFilesState (world d)) = true
                 ∨ anyDone (imageFilesState (world d)) = false)
    by (left; vm_compute; reflexivity).
  destruct (export_reenables_download d 0 _ (Generated 0) Hk (or_introl eq_refl) Hany)
    as (_ & _ & _ & H & _).
  split_and!; [exact Hk|exact Hany|vm_compute; reflexivity|exact H].
Defined.

Lemma export_keeps_store_witness :
  let d := runDesk [PageEvent (FilesChosen [fileA]); PageEvent (Resolved 0 outA)]
             (initialDesk toolbar0) in
  isPageEvent ClickDownloadAll = false ∧
  imageFilesState (world (dispatchDeskEvent ClickDownloadAll d))
  = imageFilesState (world d) ∧
  exportTrace (dispatchDeskEvent ClickDownloadAll d)
  = [ZipFile {| entry_name := "compressed-a.png"; entry_data := outA |};
     GenerateAsync [{| entry_name := "compressed-a.png"; entry_data := outA |}]].
Proof.
  intros d. split; [reflexivity|].
  pose proof (export_keeps_store ClickDownloadAll d eq_refl) as H.
  cbv zeta in H. apply proj1 in H.
  split; [exact H|vm_compute; reflexivity].
Defined.

Lemma compressing_records_have_runs_witness :
  let evs := [PageEvent (FilesChosen [fileA]); ClickDownloadAll] in
  let w := world (runDesk evs (initialDesk toolbar0)) in
  newRecord 0 fileA 0 ∈ imageFilesState w ∧
  status (newRecord 0 fileA 0) = compressing ∧
  id (newRecord 0 fileA 0) ∈ run_id <$> inFlight w.
Proof.
  intros evs w.
  assert (Hin : newRecord 0 fileA 0 ∈ imageFilesState w) by (vm_compute; left).
  split_and!; [exact Hin|reflexivity|].
  exact (compressing_records_have_runs toolbar0 evs _ Hin eq_refl).
Defined.
